(** * The shop of x-ui: orders, approval, storefront inbounds, custom pricing

    A shallow embedding of [web/service/shop.go] (the [ShopService]) and of
    the shop controller ([approveOrder], [rejectOrder], [getReceipt]),
    followed by the properties of the order life cycle that the
    specification states about them.

    Conventions.
    - Go's [int] and [int64] are 64-bit two's complement integers, embedded
      in [Z]; the only arithmetic the shop performs that can leave the range
      is the product in [CalculateCustomPrice], whose wrap-around is written
      out ([wrap64]).
    - Go's [error] is embedded as its message; [nil] is [None].
    - The database behind [database.GetDB()] is explicit state: the two shop
      tables are lists of rows, and every query first asks the state whether
      the database fails this time ([db_faults]).
    - [time.Now()] reads the [clock] of the state. *)

From stdpp Require Import base decidable option list gmap strings sorting.
From Stdlib Require Import ZArith Lia Ascii.

Local Open Scope string_scope.
Local Open Scope Z_scope.

(** ** Errors and results *)

Definition error : Type := string.

Inductive result (A : Type) : Type :=
| Ok (a : A)
| Err (e : error).
Arguments Ok {A} a.
Arguments Err {A} e.

Definition is_ok {A} (r : result A) : bool :=
  match r with Ok _ => true | Err _ => false end.

(** [gorm.ErrRecordNotFound]. *)
Definition ErrRecordNotFound : error := "record not found".

(** ** Machine integers *)

Definition int_min : Z := - 2 ^ 63.
Definition int_max : Z := 2 ^ 63 - 1.

Definition in_int (z : Z) : Prop := int_min <= z <= int_max.

(** The value a 64-bit signed register holds after computing [z]. *)
Definition wrap64 (z : Z) : Z := (z + 2 ^ 63) mod 2 ^ 64 - 2 ^ 63.

(** Go's [*] on [int]. *)
Definition int_mul (a b : Z) : Z := wrap64 (a * b).

(** The conversion [int64(x)] of an [int]. *)
Definition int64 (x : Z) : Z := wrap64 x.

(** ** Library functions of Go the controller calls *)

Module strconv.

Definition digit_value (c : ascii) : option Z :=
  let n := Z.of_N (N_of_ascii c) in
  if (48 <=? n) && (n <=? 57) then Some (n - 48) else None.

(** The value of a string of decimal digits, most significant first. *)
Fixpoint digits (acc : Z) (s : string) : option Z :=
  match s with
  | EmptyString => Some acc
  | String c rest =>
      match digit_value c with
      | Some d => digits (10 * acc + d) rest
      | None => None
      end
  end.

Definition ErrSyntax : error := "strconv.Atoi: invalid syntax".
Definition ErrRange : error := "strconv.Atoi: value out of range".

(** [strconv.Atoi]: an optional sign, then at least one decimal digit, and
    a value that fits [int]. *)
Definition Atoi (s : string) : result Z :=
  let '(neg, body) :=
    match s with
    | String "-" rest => (true, rest)
    | String "+" rest => (false, rest)
    | _ => (false, s)
    end in
  match body with
  | EmptyString => Err ErrSyntax
  | _ =>
      match digits 0 body with
      | None => Err ErrSyntax
      | Some n =>
          let v := if neg : bool then - n else n in
          if (int_min <=? v) && (v <=? int_max) then Ok v else Err ErrRange
      end
  end.

End strconv.

Module filepath.

(** The elements of a path: what stands between its separators. *)
Fixpoint elements (path : string) : list string :=
  match path with
  | EmptyString => [EmptyString]
  | String c rest =>
      if Ascii.eqb c "/" then EmptyString :: elements rest
      else
        match elements rest with
        | e :: es => String c e :: es
        | [] => [String c EmptyString]
        end
  end.

(** One element read by [Clean]; [out] holds the elements written so far,
    the last one first. An empty element and [.] are dropped; [..] removes
    the element before it, is kept at the start of a relative path, and is
    dropped at the root. *)
Definition clean_element (rooted : bool) (out : list string) (e : string)
  : list string :=
  if String.eqb e "" || String.eqb e "." then out
  else if String.eqb e ".." then
    match out with
    | top :: below => if String.eqb top ".." then e :: out else below
    | [] => if rooted then [] else [e]
    end
  else e :: out.

(** [filepath.Clean] on a system whose separator is the slash: the shortest
    path that names the same file by purely lexical processing. *)
Definition Clean (path : string) : string :=
  let rooted := String.prefix "/" path in
  let out := rev (foldl (clean_element rooted) [] (elements path)) in
  let body := String.concat "/" out in
  if rooted then String.append "/" body
  else if String.eqb body "" then "." else body.

End filepath.

(** ** The data model ([database/model]) *)

Definition OrderStatusPendingReceipt : string := "PENDING_RECEIPT".
Definition OrderStatusPendingReview : string := "PENDING_REVIEW".
Definition OrderStatusApproved : string := "APPROVED".
Definition OrderStatusRejected : string := "REJECTED".

(** Modelled from the spec: the declaration of [model.ShopOrder] is not among
    the sources. The fields are the ones the specification lists for an
    order, under the names the service and the controller use for them
    ([Id], [TelegramId], [Status], [ReceiptPath]) and the names of the
    columns they patch ([receipt_file_id], [client_email], [client_id],
    [client_sub_id], [updated_at]). *)
Module ShopOrder.
Record t : Type := mk {
  Id : Z;
  TelegramId : Z;
  PackageId : option Z;
  DataGB : Z;
  Days : Z;
  Price : Z;
  Status : string;
  ReceiptPath : string;
  ReceiptFileId : string;
  ClientEmail : string;
  ClientId : string;
  ClientSubId : string;
  CreatedAt : Z;
  UpdatedAt : Z
}.
End ShopOrder.

(** Modelled from the spec: the declaration of [model.ShopInbound], a row of
    the sparse override table, is not among the sources. *)
Module ShopInbound.
Record t : Type := mk {
  Id : Z;
  InboundId : Z;
  Enabled : bool;
  CreatedAt : Z;
  UpdatedAt : Z
}.
End ShopInbound.

(** Modelled from the spec: of [model.Inbound] only the fields that
    [ListInbounds] reads. *)
Module Inbound.
Record t : Type := mk {
  Id : Z;
  Remark : string;
  Protocol : string;
  Port : Z
}.
End Inbound.

(** [ShopInboundOption] holds inbound info with shop availability. *)
Module ShopInboundOption.
Record t : Type := mk {
  Id : Z;
  Remark : string;
  Protocol : string;
  Port : Z;
  Enabled : bool
}.
End ShopInboundOption.

(** ** The collaborators of the service *)

(** What the settings store answers: each getter returns a value and an
    error. *)
Record SettingService : Type := {
  GetShopMinGB : Z * option error;
  GetShopMaxGB : Z * option error;
  GetShopMinDays : Z * option error;
  GetShopMaxDays : Z * option error;
  GetShopPricePerGB : Z * option error
}.

(** What the proxy configuration answers. *)
Record InboundService : Type := {
  GetAllInbounds : result (list Inbound.t)
}.

(** [ShopService] provides operations for packages and orders. *)
Record ShopService : Type := {
  inboundService : InboundService;
  settingService : SettingService
}.

(** ** The state the handlers run in *)

Record World : Type := mkWorld {
  shop_orders : list ShopOrder.t;
  shop_inbounds : list ShopInbound.t;
  (** for each coming database query, the error it fails with, if any;
      past the end of the list every query succeeds *)
  db_faults : list (option error);
  clock : Z;
  (** the files [os.Stat] finds *)
  files : gset string;
  (** the orders [ProvisionOrder] was called with, the latest first *)
  provision_calls : list ShopOrder.t;
  (** the [SendOrderFulfillment] requests, the latest first *)
  fulfillments : list (Z * string);
  (** the lines [logger.Warning] wrote, the latest first *)
  warnings : list (string * error)
}.

Definition M (A : Type) : Type := World → A * World.

Definition ret {A} (a : A) : M A := λ w, (a, w).

Definition bind {A B} (m : M A) (k : A → M B) : M B :=
  λ w, let '(a, w') := m w in k a w'.

#[global] Instance M_ret : MRet M := @ret.
#[global] Instance M_bind : MBind M := λ A B k m, bind m k.

Definition gets {A} (f : World → A) : M A := λ w, (f w, w).

Definition modify (f : World → World) : M unit := λ w, (tt, f w).

Definition with_orders (rows : list ShopOrder.t) (w : World) : World :=
  mkWorld rows (shop_inbounds w) (db_faults w) (clock w) (files w)
    (provision_calls w) (fulfillments w) (warnings w).

Definition with_inbounds (rows : list ShopInbound.t) (w : World) : World :=
  mkWorld (shop_orders w) rows (db_faults w) (clock w) (files w)
    (provision_calls w) (fulfillments w) (warnings w).

(** What the database answers to the next query. *)
Definition next_fault (w : World) : option error :=
  default None (head (db_faults w)).

(** The state once the database has answered a query. *)
Definition after_query (w : World) : World :=
  mkWorld (shop_orders w) (shop_inbounds w) (tail (db_faults w)) (clock w)
    (files w) (provision_calls w) (fulfillments w) (warnings w).

(** The database answers the next query: [None] when it works. *)
Definition db_query : M (option error) :=
  λ w, (next_fault w, after_query w).

(** [time.Now()]. *)
Definition time_Now : M Z := gets clock.

(** [logger.Warning(msg, err)]. *)
Definition logger_Warning (msg : string) (err : error) : M unit :=
  λ w, (tt, mkWorld (shop_orders w) (shop_inbounds w) (db_faults w)
              (clock w) (files w) (provision_calls w) (fulfillments w)
              ((msg, err) :: warnings w)).

(** [os.Stat(path)]: whether the file is there. *)
Definition os_Stat (path : string) : M bool :=
  gets (λ w, bool_decide (path ∈ files w)).

(** ** The queries of the service, as gorm runs them *)

(** [db.First(order, id)]: the row with this primary key. *)
Definition First_order (id : Z) : M (result ShopOrder.t) :=
  fault ← db_query;
  match fault with
  | Some err => mret (Err err)
  | None =>
      rows ← gets shop_orders;
      mret (match List.find (λ o, ShopOrder.Id o =? id) rows with
            | Some order => Ok order
            | None => Err ErrRecordNotFound
            end)
  end.

(** [db.Model(&model.ShopOrder{}).Where("id = ?", id).Updates(columns)]:
    every row with this id gets the columns; a query that matches no row is
    no error. *)
Definition Updates_order (id : Z) (columns : ShopOrder.t → ShopOrder.t)
  : M (option error) :=
  fault ← db_query;
  match fault with
  | Some err => mret (Some err)
  | None =>
      rows ← gets shop_orders;
      modify (with_orders
                ((λ o, if ShopOrder.Id o =? id then columns o else o)
                   <$> rows));;
      mret None
  end.

(** [db.Find(&shopInbounds)]: all rows of the override table, and nothing
    with an error. *)
Definition Find_shop_inbounds : M (list ShopInbound.t * option error) :=
  fault ← db_query;
  match fault with
  | Some err => mret ([], Some err)
  | None => rows ← gets shop_inbounds; mret (rows, None)
  end.

(** [db.Where("inbound_id = ?", inboundId).First(&existing)]. *)
Definition First_shop_inbound (inboundId : Z) : M (result ShopInbound.t) :=
  fault ← db_query;
  match fault with
  | Some err => mret (Err err)
  | None =>
      rows ← gets shop_inbounds;
      mret (match List.find (λ r, ShopInbound.InboundId r =? inboundId) rows
            with
            | Some row => Ok row
            | None => Err ErrRecordNotFound
            end)
  end.

Definition Updates_shop_inbound (id : Z)
  (columns : ShopInbound.t → ShopInbound.t) : M (option error) :=
  fault ← db_query;
  match fault with
  | Some err => mret (Some err)
  | None =>
      rows ← gets shop_inbounds;
      modify (with_inbounds
                ((λ r, if ShopInbound.Id r =? id then columns r else r)
                   <$> rows));;
      mret None
  end.

(** The key an auto-increment column gives the next row. *)
Definition next_id (rows : list ShopInbound.t) : Z :=
  1 + foldr (λ r m, Z.max (ShopInbound.Id r) m) 0 rows.

(** [db.Create(&model.ShopInbound{...})]. *)
Definition Create_shop_inbound (inboundId : Z) (enabled : bool)
  (createdAt updatedAt : Z) : M (option error) :=
  fault ← db_query;
  match fault with
  | Some err => mret (Some err)
  | None =>
      rows ← gets shop_inbounds;
      modify (with_inbounds
                (rows ++
                 [ShopInbound.mk (next_id rows) inboundId enabled
                    createdAt updatedAt]));;
      mret None
  end.

(** ** web/service/shop.go *)

Definition GetOrder (id : Z) : M (result ShopOrder.t) := First_order id.

(** The columns [UpdateOrderReceipt] writes. *)
Definition receipt_columns (receiptPath receiptFileId : string) (now : Z)
  (o : ShopOrder.t) : ShopOrder.t :=
  ShopOrder.mk (ShopOrder.Id o) (ShopOrder.TelegramId o)
    (ShopOrder.PackageId o) (ShopOrder.DataGB o) (ShopOrder.Days o)
    (ShopOrder.Price o)
    OrderStatusPendingReview receiptPath receiptFileId
    (ShopOrder.ClientEmail o) (ShopOrder.ClientId o) (ShopOrder.ClientSubId o)
    (ShopOrder.CreatedAt o) now.

Definition UpdateOrderReceipt (id : Z) (receiptPath receiptFileId : string)
  : M (option error) :=
  now ← time_Now;
  Updates_order id (receipt_columns receiptPath receiptFileId now).

(** The columns [UpdateOrderStatus] writes. *)
Definition status_columns (status : string) (now : Z) (o : ShopOrder.t)
  : ShopOrder.t :=
  ShopOrder.mk (ShopOrder.Id o) (ShopOrder.TelegramId o)
    (ShopOrder.PackageId o) (ShopOrder.DataGB o) (ShopOrder.Days o)
    (ShopOrder.Price o)
    status (ShopOrder.ReceiptPath o) (ShopOrder.ReceiptFileId o)
    (ShopOrder.ClientEmail o) (ShopOrder.ClientId o) (ShopOrder.ClientSubId o)
    (ShopOrder.CreatedAt o) now.

Definition UpdateOrderStatus (id : Z) (status note : string)
  : M (option error) :=
  now ← time_Now;
  Updates_order id (status_columns status now).

(** The columns [SetOrderProvisioned] writes. *)
Definition provisioned_columns (email clientId subId : string) (now : Z)
  (o : ShopOrder.t) : ShopOrder.t :=
  ShopOrder.mk (ShopOrder.Id o) (ShopOrder.TelegramId o)
    (ShopOrder.PackageId o) (ShopOrder.DataGB o) (ShopOrder.Days o)
    (ShopOrder.Price o)
    OrderStatusApproved (ShopOrder.ReceiptPath o) (ShopOrder.ReceiptFileId o)
    email clientId subId
    (ShopOrder.CreatedAt o) now.

Definition SetOrderProvisioned (id : Z) (email clientId subId : string)
  : M (option error) :=
  now ← time_Now;
  Updates_order id (provisioned_columns email clientId subId now).

(** [a] may stand before [b] in a slice sorted by [less]. *)
Definition may_precede {A} (less : A → A → bool) (a b : A) : Prop :=
  less b a = false.

#[global] Instance may_precede_dec {A} (less : A → A → bool) (a b : A)
  : Decision (may_precede less a b).
Proof. unfold may_precede. apply _. Defined.

(** [sort.Slice(x, less)]: the elements of [x], none before one that is
    less than it. *)
Definition sort_Slice {A} (less : A → A → bool) (x : list A) : list A :=
  merge_sort (may_precede less) x.

(** The loop that fills [enabledMap]: a later row overwrites an earlier one
    for the same inbound. *)
Definition enabled_map (shopInbounds : list ShopInbound.t) : gmap Z bool :=
  foldl (λ m item, <[ShopInbound.InboundId item := ShopInbound.Enabled item]> m)
    ∅ shopInbounds.

(** The loop that fills [options]; [enabledMap[inbound.Id]] is [false] for
    a key that is not in the map. *)
Definition inbound_option (enabledMap : gmap Z bool) (useDefaultAll : bool)
  (inbound : Inbound.t) : ShopInboundOption.t :=
  let enabled := default false (enabledMap !! Inbound.Id inbound) in
  let enabled := if useDefaultAll then true else enabled in
  ShopInboundOption.mk (Inbound.Id inbound) (Inbound.Remark inbound)
    (Inbound.Protocol inbound) (Inbound.Port inbound) enabled.

Definition ListInbounds (s : ShopService)
  : M (result (list ShopInboundOption.t)) :=
  match GetAllInbounds (inboundService s) with
  | Err err => mret (Err err)
  | Ok inbounds =>
      found ← Find_shop_inbounds;
      let shopInbounds := found.1 in
      let enabledMap := enabled_map shopInbounds in
      (* If none configured, default to all enabled. *)
      let useDefaultAll := bool_decide (length shopInbounds = 0%nat) in
      let options := inbound_option enabledMap useDefaultAll <$> inbounds in
      mret (Ok (sort_Slice
                  (λ a b, ShopInboundOption.Id a <? ShopInboundOption.Id b)
                  options))
  end.

Definition SetInboundEnabled (inboundId : Z) (enabled : bool)
  : M (option error) :=
  existing ← First_shop_inbound inboundId;
  match existing with
  | Ok existing =>
      now ← time_Now;
      Updates_shop_inbound (ShopInbound.Id existing)
        (λ r, ShopInbound.mk (ShopInbound.Id r) (ShopInbound.InboundId r)
                enabled (ShopInbound.CreatedAt r) now)
  | Err _ =>
      now ← time_Now;
      Create_shop_inbound inboundId enabled now now
  end.

Definition EnabledInboundIds (s : ShopService) : M (result (list Z)) :=
  inbounds ← ListInbounds s;
  match inbounds with
  | Err err => mret (Err err)
  | Ok inbounds =>
      mret (Ok (ShopInboundOption.Id <$>
                  filter (λ ib, ShopInboundOption.Enabled ib = true) inbounds))
  end.

Definition ValidateCustomOrder (s : ShopService) (dataGB days : Z)
  : option error :=
  let minGb := (GetShopMinGB (settingService s)).1 in
  let maxGb := (GetShopMaxGB (settingService s)).1 in
  let minDays := (GetShopMinDays (settingService s)).1 in
  let maxDays := (GetShopMaxDays (settingService s)).1 in
  if (minGb >? 0) && (dataGB <? minGb) then
    Some "data less than minimum allowed"
  else if (maxGb >? 0) && (dataGB >? maxGb) then
    Some "data greater than maximum allowed"
  else if (minDays >? 0) && (days <? minDays) then
    Some "days less than minimum allowed"
  else if (maxDays >? 0) && (days >? maxDays) then
    Some "days greater than maximum allowed"
  else None.

Definition CalculateCustomPrice (s : ShopService) (dataGB : Z)
  : Z * option error :=
  let '(pricePerGb, err) := GetShopPricePerGB (settingService s) in
  match err with
  | Some err => (0, Some err)
  | None =>
      let pricePerGb := if pricePerGb <? 0 then 0 else pricePerGb in
      (int64 (int_mul dataGB pricePerGb), None)
  end.

(** ** The shop controller *)

Definition StatusBadRequest : Z := 400.
Definition StatusNotFound : Z := 404.

(** What a handler answers. [jsonMsg] is the call of the controller's
    helper of that name with its message and error; how the helper renders
    them is not part of this file. *)
Inductive Response : Type :=
| jsonMsg (msg : string) (err : option error)
| AbortWithStatus (code : Z)
| File (path : string).

(** A request to approve, between two of its calls into the shared state:
    [approveOrder] reads the order, calls the provisioner, and writes the
    order, and another request can run between any two of these. *)
Inductive Approval : Type :=
| Arrived (param : string)
| Loaded (order : ShopOrder.t)
| Provisioned (order : ShopOrder.t) (email clientId subId : string)
| Answered (response : Response).

Section Controller.

(** The bot's provisioner: the account it creates for an order, as e-mail,
    client id and subscription id, or the error it fails with. *)
Variable Provision : ShopOrder.t → result (string * string * string).

(** [s.tgbotService.ProvisionOrder(order)]. *)
Definition ProvisionOrder (order : ShopOrder.t)
  : M (result (string * string * string)) :=
  λ w, (Provision order,
        mkWorld (shop_orders w) (shop_inbounds w) (db_faults w) (clock w)
          (files w) (order :: provision_calls w) (fulfillments w)
          (warnings w)).

(** [s.tgbotService.SendOrderFulfillment(telegramId, email)]. *)
Definition SendOrderFulfillment (telegramId : Z) (email : string) : M unit :=
  λ w, (tt,
        mkWorld (shop_orders w) (shop_inbounds w) (db_faults w) (clock w)
          (files w) (provision_calls w)
          ((telegramId, email) :: fulfillments w) (warnings w)).

Definition approveOrder (param : string) : M Response :=
  match strconv.Atoi param with
  | Err err => mret (jsonMsg "invalid id" (Some err))
  | Ok id =>
      found ← GetOrder id;
      match found with
      | Err err => mret (jsonMsg "order not found" (Some err))
      | Ok order =>
          if negb (String.eqb (ShopOrder.Status order) OrderStatusPendingReview)
          then mret (jsonMsg "order not ready" None)
          else
            provisioned ← ProvisionOrder order;
            match provisioned with
            | Err err => mret (jsonMsg "provision failed" (Some err))
            | Ok (email, clientId, subId) =>
                saved ← SetOrderProvisioned (ShopOrder.Id order)
                          email clientId subId;
                match saved with
                | Some err =>
                    logger_Warning "order provision saved partially:" err
                | None => mret tt
                end;;
                (* notify user if bot is running *)
                SendOrderFulfillment (ShopOrder.TelegramId order) email;;
                mret (jsonMsg "approved" None)
            end
      end
  end.

Definition rejectOrder (param : string) : M Response :=
  match strconv.Atoi param with
  | Err err => mret (jsonMsg "invalid id" (Some err))
  | Ok id =>
      err ← UpdateOrderStatus id OrderStatusRejected "";
      mret (jsonMsg "rejected" err)
  end.

Definition getReceipt (param : string) : M Response :=
  match strconv.Atoi param with
  | Err _ => mret (AbortWithStatus StatusBadRequest)
  | Ok id =>
      found ← GetOrder id;
      match found with
      | Err _ => mret (AbortWithStatus StatusNotFound)
      | Ok order =>
          if String.eqb (ShopOrder.ReceiptPath order) ""
          then mret (AbortWithStatus StatusNotFound)
          else
            let path := filepath.Clean (ShopOrder.ReceiptPath order) in
            stat ← os_Stat path;
            if stat : bool then mret (File path)
            else mret (AbortWithStatus StatusNotFound)
      end
  end.

(** [approveOrder] by steps: the part of it up to its next call into the
    shared state. Taken one after the other the steps are [approveOrder]
    ([run_alone_approveOrder]). *)
Definition approve_step (a : Approval) : M Approval :=
  match a with
  | Arrived param =>
      match strconv.Atoi param with
      | Err err => mret (Answered (jsonMsg "invalid id" (Some err)))
      | Ok id =>
          found ← GetOrder id;
          match found with
          | Err err => mret (Answered (jsonMsg "order not found" (Some err)))
          | Ok order =>
              if negb (String.eqb (ShopOrder.Status order)
                         OrderStatusPendingReview)
              then mret (Answered (jsonMsg "order not ready" None))
              else mret (Loaded order)
          end
      end
  | Loaded order =>
      provisioned ← ProvisionOrder order;
      match provisioned with
      | Err err => mret (Answered (jsonMsg "provision failed" (Some err)))
      | Ok (email, clientId, subId) =>
          mret (Provisioned order email clientId subId)
      end
  | Provisioned order email clientId subId =>
      saved ← SetOrderProvisioned (ShopOrder.Id order) email clientId subId;
      match saved with
      | Some err => logger_Warning "order provision saved partially:" err
      | None => mret tt
      end;;
      SendOrderFulfillment (ShopOrder.TelegramId order) email;;
      mret (Answered (jsonMsg "approved" None))
  | Answered response => mret (Answered response)
  end.

(** Two requests, run in the order the schedule gives: [true] lets the
    first one take its next step, [false] the second. *)
Fixpoint run_two (schedule : list bool) (a b : Approval)
  : M (Approval * Approval) :=
  match schedule with
  | [] => mret (a, b)
  | true :: rest => a' ← approve_step a; run_two rest a' b
  | false :: rest => b' ← approve_step b; run_two rest a b'
  end.

(** One request run alone, to its answer. *)
Definition run_alone (a : Approval) : M Approval :=
  a1 ← approve_step a; a2 ← approve_step a1; approve_step a2.

End Controller.

(** ** The listings and the package catalogue *)

(** [a] may stand before [b] in rows that a query returns in descending
    order of [key]. *)
Definition descending {A} (key : A → Z) (a b : A) : Prop := key b <= key a.

#[global] Instance descending_dec {A} (key : A → Z) (a b : A)
  : Decision (descending key a b).
Proof. unfold descending. apply _. Defined.

(** [Order("id desc")]: the rows, the greatest id first. *)
Definition Order_desc {A} (key : A → Z) (rows : list A) : list A :=
  merge_sort (descending key) rows.

Definition ListOrders : M (list ShopOrder.t * option error) :=
  fault ← db_query;
  match fault with
  | Some err => mret ([], Some err)
  | None =>
      rows ← gets shop_orders;
      mret (Order_desc ShopOrder.Id rows, None)
  end.

Definition ListOrdersByTelegramId (tgId : Z)
  : M (list ShopOrder.t * option error) :=
  fault ← db_query;
  match fault with
  | Some err => mret ([], Some err)
  | None =>
      rows ← gets shop_orders;
      mret (Order_desc ShopOrder.Id
              (List.filter (λ o, ShopOrder.TelegramId o =? tgId) rows),
            None)
  end.

(** [setInboundEnabled]; [body] is what [c.ShouldBindJSON(&body)] made of
    the request: the [enabled] flag, or the error of the binding. *)
Definition setInboundEnabled (param : string) (body : result bool)
  : M Response :=
  match strconv.Atoi param with
  | Err err => mret (jsonMsg "invalid id" (Some err))
  | Ok id =>
      match body with
      | Err err => mret (jsonMsg "invalid request" (Some err))
      | Ok enabled =>
          err ← SetInboundEnabled id enabled;
          mret (jsonMsg "updated" err)
      end
  end.

(** Modelled from the spec: the declaration of [model.ShopPackage] is not
    among the sources. The fields are the ones the specification lists
    for a package; the service names the column [is_active] and the
    controller the fields [Id] and [Name]. *)
Module ShopPackage.
Record t : Type := mk {
  Id : Z;
  Name : string;
  DataGB : Z;
  Days : Z;
  Price : Z;
  IsActive : bool;
  CreatedAt : Z;
  UpdatedAt : Z
}.
End ShopPackage.

(** The state with the package table beside the rest. *)
Record Store : Type := mkStore {
  world : World;
  shop_packages : list ShopPackage.t
}.

Definition MP (A : Type) : Type := Store → A * Store.

#[global] Instance MP_ret : MRet MP := λ A a st, (a, st).
#[global] Instance MP_bind : MBind MP :=
  λ A B k m st, let '(a, st') := m st in k a st'.

(** A computation on the rest of the state, run beside the packages. *)
Definition lift {A} (m : M A) : MP A :=
  λ st, let '(a, w') := m (world st) in (a, mkStore w' (shop_packages st)).

Definition get_packages : MP (list ShopPackage.t) :=
  λ st, (shop_packages st, st).

Definition put_packages (rows : list ShopPackage.t) : MP unit :=
  λ st, (tt, mkStore (world st) rows).

Definition ListPackages (activeOnly : bool)
  : MP (list ShopPackage.t * option error) :=
  fault ← lift db_query;
  match fault with
  | Some err => mret ([], Some err)
  | None =>
      rows ← get_packages;
      let query :=
        if activeOnly then List.filter ShopPackage.IsActive rows else rows in
      mret (Order_desc ShopPackage.Id query, None)
  end.

(** [database.GetDB().Delete(&model.ShopPackage{}, id)]: the rows with this
    primary key are gone; a key that no row has is no error. *)
Definition DeletePackage (id : Z) : MP (option error) :=
  fault ← lift db_query;
  match fault with
  | Some err => mret (Some err)
  | None =>
      rows ← get_packages;
      put_packages
        (List.filter (λ p, negb (ShopPackage.Id p =? id)) rows);;
      mret None
  end.

Definition GetPackage (id : Z) : MP (result ShopPackage.t) :=
  fault ← lift db_query;
  match fault with
  | Some err => mret (Err err)
  | None =>
      rows ← get_packages;
      mret (match List.find (λ p, ShopPackage.Id p =? id) rows with
            | Some pkg => Ok pkg
            | None => Err ErrRecordNotFound
            end)
  end.

Definition deletePackage (param : string) : MP Response :=
  match strconv.Atoi param with
  | Err err => mret (jsonMsg "invalid id" (Some err))
  | Ok id =>
      err ← DeletePackage id;
      mret (jsonMsg "deleted" err)
  end.

(** [listOrders]: the answer is the [jsonMsg] of the failure, or the
    orders and the packages that [jsonObj] is given with no error. *)
Definition listOrders
  : MP (Response + list ShopOrder.t * list ShopPackage.t) :=
  listed ← lift ListOrders;
  match listed.2 with
  | Some err => mret (inl (jsonMsg "failed to get orders" (Some err)))
  | None =>
      packages ← ListPackages false;
      mret (inr (listed.1, packages.1))
  end.

(** * The vocabulary of the properties *)

(** ** Settings *)

(** The rate [CalculateCustomPrice] multiplies by. *)
Definition clamped_rate (s : ShopService) : Z :=
  Z.max 0 (GetShopPricePerGB (settingService s)).1.

(** A shop whose settings hold the given bounds and rate, all readable. *)
Definition shop_with (minGb maxGb minDays maxDays pricePerGb : Z)
  : ShopService :=
  {| inboundService := {| GetAllInbounds := Ok [] |};
     settingService :=
       {| GetShopMinGB := (minGb, None);
          GetShopMaxGB := (maxGb, None);
          GetShopMinDays := (minDays, None);
          GetShopMaxDays := (maxDays, None);
          GetShopPricePerGB := (pricePerGb, None) |} |}.

(** ** The order table *)

(** The row [db.First] finds for an order id. *)
Definition find_order (id : Z) (w : World) : option ShopOrder.t :=
  List.find (λ o, ShopOrder.Id o =? id) (shop_orders w).

(** The rows of the order table after an update of the rows with [id]. *)
Definition updated_rows (id : Z) (columns : ShopOrder.t → ShopOrder.t)
  (rows : list ShopOrder.t) : list ShopOrder.t :=
  (λ o, if ShopOrder.Id o =? id then columns o else o) <$> rows.

(** All the columns of an order but [status] and [updated_at]. *)
Definition same_but_status (o o' : ShopOrder.t) : Prop :=
  ShopOrder.Id o' = ShopOrder.Id o
  ∧ ShopOrder.TelegramId o' = ShopOrder.TelegramId o
  ∧ ShopOrder.PackageId o' = ShopOrder.PackageId o
  ∧ ShopOrder.DataGB o' = ShopOrder.DataGB o
  ∧ ShopOrder.Days o' = ShopOrder.Days o
  ∧ ShopOrder.Price o' = ShopOrder.Price o
  ∧ ShopOrder.ReceiptPath o' = ShopOrder.ReceiptPath o
  ∧ ShopOrder.ReceiptFileId o' = ShopOrder.ReceiptFileId o
  ∧ ShopOrder.ClientEmail o' = ShopOrder.ClientEmail o
  ∧ ShopOrder.ClientId o' = ShopOrder.ClientId o
  ∧ ShopOrder.ClientSubId o' = ShopOrder.ClientSubId o
  ∧ ShopOrder.CreatedAt o' = ShopOrder.CreatedAt o.

(** ** Handlers and the scenarios they are run in *)

(** A handler left the orders, the provisioner and the notifier alone. *)
Definition untouched (w w' : World) : Prop :=
  shop_orders w' = shop_orders w
  ∧ provision_calls w' = provision_calls w
  ∧ fulfillments w' = fulfillments w.

(** The scenario of the specification: order 7 awaits review, and the
    provisioner answers with one fixed account. *)
Definition order7 : ShopOrder.t :=
  ShopOrder.mk 7 1001 None 50 30 250 OrderStatusPendingReview
    "receipts/7.jpg" "file-7" "" "" "" 100 110.

Definition provisioner7 (order : ShopOrder.t)
  : result (string * string * string) :=
  Ok ("user7@x", "cid-1", "sub-1").

Definition world7 : World := mkWorld [order7] [] [] 120 ∅ [] [] [].

Definition order7_approved : ShopOrder.t :=
  ShopOrder.mk 7 1001 None 50 30 250 OrderStatusApproved
    "receipts/7.jpg" "file-7" "user7@x" "cid-1" "sub-1" 100 120.

Definition world7_approved : World :=
  mkWorld [order7_approved] [] [] 120 ∅ [order7] [(1001, "user7@x")] [].

(** The state after a successful [ProvisionOrder order] that followed the
    loading of the order. *)
Definition provisioning (order : ShopOrder.t) (w : World) : World :=
  mkWorld (shop_orders w) (shop_inbounds w) (tail (db_faults w)) (clock w)
    (files w) (order :: provision_calls w) (fulfillments w) (warnings w).

(** The state of the scenario in which the database answers the lookup and
    then fails. *)
Definition world7_failing : World :=
  mkWorld [order7] [] [None; Some "database is locked"] 120 ∅ [] [] [].

(** A shop with no order at all. *)
Definition empty_world : World := mkWorld [] [] [] 120 ∅ [] [] [].

(** [path] names the directory [root] or something below it. *)
Definition within_root (root path : string) : bool :=
  String.eqb path root || String.prefix (root +:+ "/") path.

(** An order whose stored receipt path climbs out of the receipts
    directory, one whose path is absolute, and the files they name. *)
Definition world_traversal : World :=
  mkWorld
    [ShopOrder.mk 9 1001 None 50 30 250 OrderStatusPendingReview
       "receipts/../../etc/passwd" "file-9" "" "" "" 100 110;
     ShopOrder.mk 10 1001 None 50 30 250 OrderStatusPendingReview
       "/etc/shadow" "file-10" "" "" "" 100 110]
    [] [] 120 {["../etc/passwd"; "/etc/shadow"]} [] [] [].

(** ** The invariant of an order *)

(** None of the three identity fields is set. *)
Definition identity_empty (o : ShopOrder.t) : bool :=
  String.eqb (ShopOrder.ClientEmail o) ""
  && String.eqb (ShopOrder.ClientId o) ""
  && String.eqb (ShopOrder.ClientSubId o) "".

(** Each of the three identity fields is set. *)
Definition identity_set (o : ShopOrder.t) : bool :=
  negb (String.eqb (ShopOrder.ClientEmail o) "")
  && negb (String.eqb (ShopOrder.ClientId o) "")
  && negb (String.eqb (ShopOrder.ClientSubId o) "").

(** The status is one of the four, an approved order has its three
    identity fields, and any other order has none of them. *)
Definition order_invariant (o : ShopOrder.t) : bool :=
  if String.eqb (ShopOrder.Status o) OrderStatusApproved then identity_set o
  else
    (String.eqb (ShopOrder.Status o) OrderStatusPendingReceipt
     || String.eqb (ShopOrder.Status o) OrderStatusPendingReview
     || String.eqb (ShopOrder.Status o) OrderStatusRejected)
    && identity_empty o.

Definition store_invariant (w : World) : Prop :=
  Forall (λ o, order_invariant o = true) (shop_orders w).

(** The orders with this id carry no identity. *)
Definition unprovisioned (id : Z) (w : World) : Prop :=
  ∀ o, o ∈ shop_orders w → ShopOrder.Id o = id → identity_empty o = true.

(** A status other than APPROVED that an order may have. *)
Definition open_or_rejected (status : string) : Prop :=
  status = OrderStatusPendingReceipt ∨ status = OrderStatusPendingReview
  ∨ status = OrderStatusRejected.

(** The provisioner never answers with an empty identity field. *)
Definition provisions_identity
  (Provision : ShopOrder.t → result (string * string * string)) : Prop :=
  ∀ order email clientId subId,
    Provision order = Ok (email, clientId, subId) →
    email ≠ "" ∧ clientId ≠ "" ∧ subId ≠ "".

(** ** The storefront list *)

(** The [less] that [ListInbounds] sorts with. *)
Definition by_id (a b : ShopInboundOption.t) : bool :=
  ShopInboundOption.Id a <? ShopInboundOption.Id b.

(** The rows [ListInbounds] gets to see: none when the query fails. *)
Definition rows_read (w : World) : list ShopInbound.t :=
  match next_fault w with
  | Some _ => []
  | None => shop_inbounds w
  end.

(** An entry of the storefront list describes this inbound. *)
Definition describes (inbound : Inbound.t) (o : ShopInboundOption.t) : Prop :=
  ShopInboundOption.Id o = Inbound.Id inbound
  ∧ ShopInboundOption.Remark o = Inbound.Remark inbound
  ∧ ShopInboundOption.Protocol o = Inbound.Protocol inbound
  ∧ ShopInboundOption.Port o = Inbound.Port inbound.

(** The scenario of the specification: three configured inbounds, and an
    override table on which [SetInboundEnabled 3 true] was the only call. *)
Definition shop3 : ShopService :=
  {| inboundService :=
       {| GetAllInbounds :=
            Ok [Inbound.mk 5 "five" "vless" 8443;
                Inbound.mk 3 "three" "vmess" 443;
                Inbound.mk 1 "one" "trojan" 2053] |};
     settingService := settingService (shop_with 0 0 0 0 0) |}.

Definition world3 : World := (SetInboundEnabled 3 true empty_world).2.

(** ** Two approvals *)

(** The state after an approval that went through. *)
Definition approved_world (id : Z) (order : ShopOrder.t)
  (email clientId subId : string) (w : World) : World :=
  mkWorld
    (updated_rows id (provisioned_columns email clientId subId (clock w))
       (shop_orders w))
    (shop_inbounds w) (tail (tail (db_faults w))) (clock w) (files w)
    (order :: provision_calls w)
    ((ShopOrder.TelegramId order, email) :: fulfillments w) (warnings w).

(** All the lists of [n] turns. *)
Fixpoint turns (n : nat) : list (list bool) :=
  match n with
  | O => [[]]
  | S n' => (cons true <$> turns n') ++ (cons false <$> turns n')
  end.

(** The schedules that run two requests of three steps each to their
    answers. *)
Definition complete_schedules : list (list bool) :=
  List.filter (λ s, Nat.eqb (List.length (List.filter (λ t, t) s)) 3) (turns 6).

(** One request has answered before the other arrives. *)
Definition serial (s : list bool) : bool :=
  bool_decide (s = [true; true; true; false; false; false])
  || bool_decide (s = [false; false; false; true; true; true]).

(** ** Round trips through the order table *)

(** All the columns of an order but the ones [UpdateOrderReceipt] writes. *)
Definition same_but_receipt (o o' : ShopOrder.t) : Prop :=
  ShopOrder.Id o' = ShopOrder.Id o
  ∧ ShopOrder.TelegramId o' = ShopOrder.TelegramId o
  ∧ ShopOrder.PackageId o' = ShopOrder.PackageId o
  ∧ ShopOrder.DataGB o' = ShopOrder.DataGB o
  ∧ ShopOrder.Days o' = ShopOrder.Days o
  ∧ ShopOrder.Price o' = ShopOrder.Price o
  ∧ ShopOrder.ClientEmail o' = ShopOrder.ClientEmail o
  ∧ ShopOrder.ClientId o' = ShopOrder.ClientId o
  ∧ ShopOrder.ClientSubId o' = ShopOrder.ClientSubId o
  ∧ ShopOrder.CreatedAt o' = ShopOrder.CreatedAt o.

(** All the columns of an order but the ones [SetOrderProvisioned] writes. *)
Definition same_but_identity (o o' : ShopOrder.t) : Prop :=
  ShopOrder.Id o' = ShopOrder.Id o
  ∧ ShopOrder.TelegramId o' = ShopOrder.TelegramId o
  ∧ ShopOrder.PackageId o' = ShopOrder.PackageId o
  ∧ ShopOrder.DataGB o' = ShopOrder.DataGB o
  ∧ ShopOrder.Days o' = ShopOrder.Days o
  ∧ ShopOrder.Price o' = ShopOrder.Price o
  ∧ ShopOrder.ReceiptPath o' = ShopOrder.ReceiptPath o
  ∧ ShopOrder.ReceiptFileId o' = ShopOrder.ReceiptFileId o
  ∧ ShopOrder.CreatedAt o' = ShopOrder.CreatedAt o.

(** The ids of the stored orders, in the order of the table. *)
Definition order_ids (w : World) : list Z := ShopOrder.Id <$> shop_orders w.


(** The database answers every query to come. *)
Definition db_works (w : World) : Prop :=
  Forall (λ fault, fault = None) (db_faults w).

(** ** The override table *)

(** The last row of the table for an inbound, if it has one. *)
Definition last_row (inboundId : Z) (rows : list ShopInbound.t)
  : option ShopInbound.t :=
  last (List.filter (λ r, ShopInbound.InboundId r =? inboundId) rows).

(** The row [SetInboundEnabled] adds for an inbound that has none. *)
Definition new_row (inboundId : Z) (enabled : bool) (w : World)
  : ShopInbound.t :=
  ShopInbound.mk (next_id (shop_inbounds w)) inboundId enabled
    (clock w) (clock w).

(** A table with a row that enables inbound 3 and a row that hides
    inbound 5. *)
Definition world35 : World :=
  mkWorld [] [ShopInbound.mk 1 3 true 100 100; ShopInbound.mk 2 5 false 100 100]
    [] 120 ∅ [] [] [].

(** A state in which the database fails the next query and then works. *)
Definition world35_failing_once : World :=
  mkWorld [] [ShopInbound.mk 1 3 true 100 100; ShopInbound.mk 2 5 false 100 100]
    [Some "database is locked"] 120 ∅ [] [] [].

(** The row [SetInboundEnabled] finds for an inbound. *)
Definition find_row (inboundId : Z) (w : World) : option ShopInbound.t :=
  List.find (λ r, ShopInbound.InboundId r =? inboundId) (shop_inbounds w).

(** The columns [SetInboundEnabled] writes to a row that exists. *)
Definition enabled_columns (enabled : bool) (now : Z) (r : ShopInbound.t)
  : ShopInbound.t :=
  ShopInbound.mk (ShopInbound.Id r) (ShopInbound.InboundId r) enabled
    (ShopInbound.CreatedAt r) now.

(** The override table after a [SetInboundEnabled] whose two queries were
    answered. *)
Definition upserted_rows (inboundId : Z) (enabled : bool) (w : World)
  : list ShopInbound.t :=
  match find_row inboundId w with
  | Some existing =>
      (λ r, if ShopInbound.Id r =? ShopInbound.Id existing
            then enabled_columns enabled (clock w) r else r)
        <$> shop_inbounds w
  | None => (shop_inbounds w ++ [new_row inboundId enabled w])%list
  end.

(** ** Requests in flight *)

(** The calls of the provisioner a request can still make. *)
Definition pending (a : Approval) : nat :=
  match a with
  | Arrived _ | Loaded _ => 1
  | Provisioned _ _ _ _ | Answered _ => 0
  end.

(** The steps a request is from its answer, at most. *)
Definition steps_left (a : Approval) : nat :=
  match a with
  | Arrived _ => 3
  | Loaded _ => 2
  | Provisioned _ _ _ _ => 1
  | Answered _ => 0
  end.

(** The turns of the first request in a schedule, and of the second. *)
Definition turns_of (first : bool) (schedule : list bool) : nat :=
  length (List.filter (λ t, Bool.eqb t first) schedule).

(** ** The package catalogue *)

(** A catalogue of three packages, one of them withdrawn, and an order
    for the second. *)
Definition store3 : Store :=
  mkStore
    (mkWorld
       [ShopOrder.mk 7 1001 (Some 2) 50 30 250 OrderStatusPendingReview
          "receipts/7.jpg" "file-7" "" "" "" 100 110]
       [] [] 120 ∅ [] [] [])
    [ShopPackage.mk 1 "small" 10 30 50 true 90 90;
     ShopPackage.mk 2 "medium" 50 30 250 true 90 90;
     ShopPackage.mk 3 "old" 20 30 80 false 90 95].

(** ** What an answer tells the caller *)

(** Modelled from the spec: the controller's helper [jsonMsg], which
    renders an answer, is not among the sources. It is given a message
    and an error and nothing else, and the handlers give it one and the
    same message for both outcomes of an operation
    ([jsonMsg(c, "rejected", err)], "deleted", "updated"), so the error
    alone tells the caller of a failure: an answer with no error is a
    success, as the boundary contract of the specification has it
    ("success with a structured result otherwise"). An aborted request is
    a failure, a served file is none. *)
Definition reports_failure (r : Response) : bool :=
  match r with
  | jsonMsg _ (Some _) => true
  | jsonMsg _ None => false
  | AbortWithStatus _ => true
  | File _ => false
  end.

(** * Properties *)

(** ** Validation and pricing *)

Lemma wrap64_in_int (z : Z) : in_int z → wrap64 z = z.
Proof.
  unfold in_int, int_min, int_max, wrap64. intros Hz.
  rewrite Z.mod_small; lia.
Qed.

Lemma wrap64_range (z : Z) : in_int (wrap64 z).
Proof.
  unfold in_int, int_min, int_max, wrap64.
  pose proof (Z.mod_pos_bound (z + 2 ^ 63) (2 ^ 64) ltac:(lia)). lia.
Qed.

Lemma wrap64_idemp (z : Z) : wrap64 (wrap64 z) = wrap64 z.
Proof. apply wrap64_in_int, wrap64_range. Qed.

Lemma CalculateCustomPrice_eq (s : ShopService) (dataGB : Z) :
  CalculateCustomPrice s dataGB =
  match (GetShopPricePerGB (settingService s)).2 with
  | Some err => (0, Some err)
  | None => (wrap64 (dataGB * clamped_rate s), None)
  end.
Proof.
  unfold CalculateCustomPrice, clamped_rate, int64, int_mul.
  destruct (GetShopPricePerGB (settingService s)) as [rate [err|]]; cbn; [done|].
  rewrite wrap64_idemp. f_equal. f_equal. f_equal.
  destruct (Z.ltb_spec rate 0); lia.
Qed.

Lemma below_bound_reflect (bound value : Z) :
  reflect (0 < bound ∧ value < bound) ((bound >? 0) && (value <? bound)).
Proof.
  apply Bool.iff_reflect.
  rewrite Bool.andb_true_iff, Z.gtb_lt, Z.ltb_lt. tauto.
Qed.

Lemma above_bound_reflect (bound value : Z) :
  reflect (0 < bound ∧ bound < value) ((bound >? 0) && (value >? bound)).
Proof.
  apply Bool.iff_reflect.
  rewrite Bool.andb_true_iff, !Z.gtb_lt. tauto.
Qed.

(** C6: [ValidateCustomOrder] accepts exactly when no positive bound is
    violated (a bound that is zero, or below, limits nothing); each of its
    four messages names one check, and is the answer exactly when that
    check is the first one violated. With the bounds 10..100 GB and 7..365
    days, [(5, 30)] gets the data-too-low message, [(50, 400)] the
    days-too-high message, and [(50, 30)] is accepted. *)
Theorem ValidateCustomOrder_bounds (s : ShopService) (dataGB days : Z) :
  let minGb := (GetShopMinGB (settingService s)).1 in
  let maxGb := (GetShopMaxGB (settingService s)).1 in
  let minDays := (GetShopMinDays (settingService s)).1 in
  let maxDays := (GetShopMaxDays (settingService s)).1 in
  let data_low := 0 < minGb ∧ dataGB < minGb in
  let data_high := 0 < maxGb ∧ maxGb < dataGB in
  let days_low := 0 < minDays ∧ days < minDays in
  let days_high := 0 < maxDays ∧ maxDays < days in
  (ValidateCustomOrder s dataGB days = None ↔
     ¬ (data_low ∨ data_high ∨ days_low ∨ days_high))
  ∧ (ValidateCustomOrder s dataGB days = Some "data less than minimum allowed"
     ↔ data_low)
  ∧ (ValidateCustomOrder s dataGB days
       = Some "data greater than maximum allowed"
     ↔ ¬ data_low ∧ data_high)
  ∧ (ValidateCustomOrder s dataGB days = Some "days less than minimum allowed"
     ↔ ¬ data_low ∧ ¬ data_high ∧ days_low)
  ∧ (ValidateCustomOrder s dataGB days
       = Some "days greater than maximum allowed"
     ↔ ¬ data_low ∧ ¬ data_high ∧ ¬ days_low ∧ days_high)
  ∧ (∀ inb e1 e2 e3 e4 rate,
       let s' := {| inboundService := inb;
                    settingService :=
                      {| GetShopMinGB := (10, e1); GetShopMaxGB := (100, e2);
                         GetShopMinDays := (7, e3);
                         GetShopMaxDays := (365, e4);
                         GetShopPricePerGB := rate |} |} in
       ValidateCustomOrder s' 5 30 = Some "data less than minimum allowed"
       ∧ ValidateCustomOrder s' 50 400
           = Some "days greater than maximum allowed"
       ∧ ValidateCustomOrder s' 50 30 = None).
Proof.
  cbv zeta. unfold ValidateCustomOrder.
  destruct
    (below_bound_reflect (GetShopMinGB (settingService s)).1 dataGB),
    (above_bound_reflect (GetShopMaxGB (settingService s)).1 dataGB),
    (below_bound_reflect (GetShopMinDays (settingService s)).1 days),
    (above_bound_reflect (GetShopMaxDays (settingService s)).1 days);
    (split; [|split; [|split; [|split; [|split]]]]);
    try (split; intros; try discriminate; tauto);
    intros; by vm_compute.
Qed.

(** C7, as the code has it: the price is the product of [dataGB] and the
    rate clamped at zero, in 64-bit arithmetic; the only failure is the
    rate's; the price is the exact product, and not negative, when [dataGB]
    is not negative and the product fits; and it does not decrease with
    [dataGB] as long as the products fit. *)
Theorem CalculateCustomPrice_product (s : ShopService) (dataGB : Z) :
  (CalculateCustomPrice s dataGB).2 = (GetShopPricePerGB (settingService s)).2
  ∧ ((CalculateCustomPrice s dataGB).2 = None →
     (CalculateCustomPrice s dataGB).1 = wrap64 (dataGB * clamped_rate s))
  ∧ (0 <= dataGB → dataGB * clamped_rate s <= int_max →
     0 <= (CalculateCustomPrice s dataGB).1
     ∧ ((CalculateCustomPrice s dataGB).2 = None →
        (CalculateCustomPrice s dataGB).1 = dataGB * clamped_rate s))
  ∧ (∀ more : Z,
       dataGB <= more →
       in_int (dataGB * clamped_rate s) → in_int (more * clamped_rate s) →
       (CalculateCustomPrice s dataGB).1 <= (CalculateCustomPrice s more).1).
Proof.
  assert (Hrate : 0 <= clamped_rate s) by (unfold clamped_rate; lia).
  rewrite CalculateCustomPrice_eq.
  destruct ((GetShopPricePerGB (settingService s)).2) as [err|] eqn:Herr; cbn.
  - split; [done|]. split; [done|]. split; [done|].
    intros more _ _ _. rewrite CalculateCustomPrice_eq, Herr. done.
  - split; [done|]. split; [done|]. split.
    + intros Hd Hfit.
      rewrite wrap64_in_int by (unfold in_int, int_min; split; [nia|done]).
      split; [nia|done].
    + intros more Hle H1 H2. rewrite CalculateCustomPrice_eq, Herr. cbn.
      rewrite !wrap64_in_int by done. nia.
Qed.

Lemma CalculateCustomPrice_product_witness :
  CalculateCustomPrice (shop_with 0 0 0 0 5) 3 = (15, None)
  ∧ (CalculateCustomPrice (shop_with 0 0 0 0 5) 3).1
    <= (CalculateCustomPrice (shop_with 0 0 0 0 5) 4).1.
Proof.
  pose proof (CalculateCustomPrice_product (shop_with 0 0 0 0 5) 3)
    as (Herr & _ & Hfit & Hmono).
  split.
  - destruct Hfit as [_ Hval]; [done | done |].
    specialize (Hval eq_refl).
    destruct (CalculateCustomPrice (shop_with 0 0 0 0 5) 3) as [p e].
    cbn in *. by subst.
  - apply (Hmono 4); [lia | |]; unfold in_int; vm_compute; split; discriminate.
Defined.

(** C7 as stated fails: a negative [dataGB] gives a negative price, a
    product that leaves the 64-bit range wraps to a negative price, and
    such a product also breaks monotonicity. *)
Lemma CalculateCustomPrice_negative_price :
  CalculateCustomPrice (shop_with 0 0 0 0 5) (-1) = (-5, None)
  ∧ CalculateCustomPrice (shop_with 0 0 0 0 2) (2 ^ 62) = (- 2 ^ 63, None)
  ∧ CalculateCustomPrice (shop_with 0 0 0 0 2) 1 = (2, None)
  ∧ ¬ (∀ s dataGB, 0 <= (CalculateCustomPrice s dataGB).1)
  ∧ ¬ (∀ s d1 d2, 0 <= (GetShopPricePerGB (settingService s)).1 → d1 <= d2 →
         (CalculateCustomPrice s d1).1 <= (CalculateCustomPrice s d2).1).
Proof.
  split; [by vm_compute|]. split; [by vm_compute|]. split; [by vm_compute|].
  split.
  - intros H. specialize (H (shop_with 0 0 0 0 5) (-1)). by vm_compute in H.
  - intros H. specialize (H (shop_with 0 0 0 0 2) 1 (2 ^ 62)).
    vm_compute in H. by apply H.
Qed.

(** ** Running the queries *)

Lemma GetOrder_run (id : Z) (w : World) :
  GetOrder id w =
  (match next_fault w with
   | Some err => Err err
   | None =>
       match find_order id w with
       | Some order => Ok order
       | None => Err ErrRecordNotFound
       end
   end, after_query w).
Proof.
  unfold GetOrder, First_order, find_order.
  unfold mbind, M_bind, bind, db_query.
  by destruct (next_fault w).
Qed.

Lemma Updates_order_run (id : Z) (columns : ShopOrder.t → ShopOrder.t)
  (w : World) :
  Updates_order id columns w =
  match next_fault w with
  | Some err => (Some err, after_query w)
  | None =>
      (None,
       with_orders (updated_rows id columns (shop_orders w)) (after_query w))
  end.
Proof.
  unfold Updates_order, updated_rows.
  unfold mbind, M_bind, bind, db_query.
  by destruct (next_fault w).
Qed.

Lemma UpdateOrderStatus_run (id : Z) (status note : string) (w : World) :
  UpdateOrderStatus id status note w =
  Updates_order id (status_columns status (clock w)) w.
Proof. reflexivity. Qed.

Lemma UpdateOrderReceipt_run (id : Z) (receiptPath receiptFileId : string)
  (w : World) :
  UpdateOrderReceipt id receiptPath receiptFileId w =
  Updates_order id (receipt_columns receiptPath receiptFileId (clock w)) w.
Proof. reflexivity. Qed.

Lemma SetOrderProvisioned_run (id : Z) (email clientId subId : string)
  (w : World) :
  SetOrderProvisioned id email clientId subId w =
  Updates_order id (provisioned_columns email clientId subId (clock w)) w.
Proof. reflexivity. Qed.

Lemma find_order_Id (id : Z) (w : World) (order : ShopOrder.t) :
  find_order id w = Some order → ShopOrder.Id order = id.
Proof.
  unfold find_order. intros H. apply List.find_some in H as [_ H]. lia.
Qed.

Lemma find_order_In (id : Z) (w : World) (order : ShopOrder.t) :
  find_order id w = Some order → order ∈ shop_orders w.
Proof.
  unfold find_order. intros H. apply List.find_some in H as [H _].
  by apply list_elem_of_In.
Qed.

Lemma find_order_None (id : Z) (w : World) :
  find_order id w = None ↔ ∀ o, o ∈ shop_orders w → ShopOrder.Id o ≠ id.
Proof.
  unfold find_order. split.
  - intros H o Ho Hid. apply list_elem_of_In in Ho.
    pose proof (List.find_none _ _ H o Ho) as Hn. cbn in Hn. lia.
  - intros H. destruct (List.find _ _) as [o|] eqn:Hf; [|done].
    apply List.find_some in Hf as [Hin Hid].
    apply list_elem_of_In in Hin. specialize (H o Hin). lia.
Qed.

Lemma updated_rows_none (id : Z) (columns : ShopOrder.t → ShopOrder.t)
  (rows : list ShopOrder.t) :
  (∀ o, o ∈ rows → ShopOrder.Id o ≠ id) → updated_rows id columns rows = rows.
Proof.
  unfold updated_rows. induction rows as [|o rows IH]; intros H; [done|].
  cbn. rewrite IH by (intros o' Ho'; apply H; by right).
  assert (ShopOrder.Id o ≠ id) as Hne by (apply H; by left).
  destruct (Z.eqb_spec (ShopOrder.Id o) id); [done|done].
Qed.

Lemma same_but_status_refl (o : ShopOrder.t) : same_but_status o o.
Proof. by repeat split. Qed.

Lemma updated_rows_status (id : Z) (status : string) (now : Z)
  (rows : list ShopOrder.t) :
  Forall2
    (λ o o',
       same_but_status o o'
       ∧ (ShopOrder.Id o = id →
          ShopOrder.Status o' = status ∧ ShopOrder.UpdatedAt o' = now)
       ∧ (ShopOrder.Id o ≠ id → o' = o))
    rows (updated_rows id (status_columns status now) rows).
Proof.
  unfold updated_rows. induction rows as [|o rows IH]; cbn; constructor; [|done].
  destruct (Z.eqb_spec (ShopOrder.Id o) id) as [Heq|Hne].
  - split; [by repeat split|]. split; [done|]. intros Hc. by destruct Hc.
  - split; [apply same_but_status_refl|]. split; [done|done].
Qed.

(** C10: [UpdateOrderStatus] does not look at its note: whatever the note,
    the answer and the whole resulting state are the same; and of the
    stored orders it writes the status and the update time of the rows with
    the given id and nothing else. *)
Theorem UpdateOrderStatus_ignores_note (id : Z) (status : string)
  (note note' : string) (w : World) :
  UpdateOrderStatus id status note w = UpdateOrderStatus id status note' w
  ∧ Forall2 same_but_status (shop_orders w)
      (shop_orders (UpdateOrderStatus id status note w).2)
  ∧ Forall2 (λ o o', ShopOrder.Id o ≠ id → o' = o) (shop_orders w)
      (shop_orders (UpdateOrderStatus id status note w).2)
  ∧ shop_inbounds (UpdateOrderStatus id status note w).2 = shop_inbounds w
  ∧ warnings (UpdateOrderStatus id status note w).2 = warnings w.
Proof.
  split; [reflexivity|].
  rewrite UpdateOrderStatus_run, Updates_order_run.
  destruct (next_fault w) as [err|]; cbn.
  - split; [|split; [|done]].
    + apply Forall_Forall2_diag, Forall_forall. intros o _.
      apply same_but_status_refl.
    + apply Forall_Forall2_diag, Forall_forall. by intros o _ _.
  - pose proof (updated_rows_status id status (clock w) (shop_orders w)) as H.
    split; [|split; [|done]].
    + eapply Forall2_impl; [exact H|]. by intros o o' (? & _).
    + eapply Forall2_impl; [exact H|]. by intros o o' (_ & _ & ?).
Qed.

(** ** Approval *)

Section Approval.

Variable Provision : ShopOrder.t → result (string * string * string).

Lemma approveOrder_run (param : string) (id : Z) (w : World) :
  strconv.Atoi param = Ok id →
  approveOrder Provision param w =
  match (GetOrder id w).1 with
  | Err err => (jsonMsg "order not found" (Some err), after_query w)
  | Ok order =>
      if negb (String.eqb (ShopOrder.Status order) OrderStatusPendingReview)
      then (jsonMsg "order not ready" None, after_query w)
      else
        match Provision order with
        | Err err => (jsonMsg "provision failed" (Some err),
                      provisioning order w)
        | Ok (email, clientId, subId) =>
            let '(saved, w') :=
              SetOrderProvisioned (ShopOrder.Id order) email clientId subId
                (provisioning order w) in
            let w'' :=
              match saved with
              | Some err =>
                  (logger_Warning "order provision saved partially:" err w').2
              | None => w'
              end in
            (jsonMsg "approved" None,
             (SendOrderFulfillment (ShopOrder.TelegramId order) email w'').2)
        end
  end.
Proof.
  intros Hid. unfold approveOrder. rewrite Hid.
  unfold mbind, M_bind, bind. rewrite GetOrder_run. cbn [fst].
  destruct (next_fault w) as [err|]; [done|].
  destruct (find_order id w) as [order|]; [|done].
  destruct (negb _); [done|].
  unfold ProvisionOrder at 1. fold (provisioning order w).
  destruct (Provision order) as [[[email clientId] subId]|err]; [|done].
  destruct (SetOrderProvisioned _ _ _ _ _) as [[err|] w']; done.
Qed.

(** C1, as the code has it: when the order's status is not
    PENDING_REVIEW, [approveOrder] calls no provisioner and leaves the
    orders as they are. If the id does not resolve it fails: it answers
    "order not found" with the error of the lookup. If the order exists in
    another status it answers "order not ready" with no error, which tells
    the caller of no failure. The provisioner is called only with an order
    that the lookup found in PENDING_REVIEW. *)
Theorem approveOrder_requires_pending_review (param : string) (id : Z)
  (w : World) (Hid : strconv.Atoi param = Ok id) :
  (∀ err, (GetOrder id w).1 = Err err →
     (approveOrder Provision param w).1 = jsonMsg "order not found" (Some err)
     ∧ reports_failure (approveOrder Provision param w).1 = true
     ∧ untouched w (approveOrder Provision param w).2)
  ∧ (∀ order, (GetOrder id w).1 = Ok order →
     ShopOrder.Status order ≠ OrderStatusPendingReview →
     (approveOrder Provision param w).1 = jsonMsg "order not ready" None
     ∧ reports_failure (approveOrder Provision param w).1 = false
     ∧ untouched w (approveOrder Provision param w).2)
  ∧ (next_fault w = None → find_order id w = None →
     (GetOrder id w).1 = Err ErrRecordNotFound)
  ∧ (provision_calls (approveOrder Provision param w).2 ≠ provision_calls w →
     ∃ order,
       find_order id w = Some order
       ∧ (GetOrder id w).1 = Ok order
       ∧ ShopOrder.Status order = OrderStatusPendingReview
       ∧ provision_calls (approveOrder Provision param w).2
         = order :: provision_calls w).
Proof.
  rewrite (approveOrder_run param id w Hid).
  split; [|split; [|split]].
  - intros err ->. by cbn.
  - intros order -> Hst.
    destruct (String.eqb_spec (ShopOrder.Status order)
                OrderStatusPendingReview); [done|]. by cbn.
  - intros Hf Hn. by rewrite GetOrder_run, Hf, Hn.
  - rewrite GetOrder_run. cbn [fst].
    destruct (next_fault w) as [err|]; [by cbn|].
    destruct (find_order id w) as [order|] eqn:Hfind; [|by cbn].
    destruct (String.eqb_spec (ShopOrder.Status order)
                OrderStatusPendingReview) as [Hst|Hst]; [|by cbn].
    cbn [negb]. intros _. exists order. repeat split; [done|].
    destruct (Provision order) as [[[email clientId] subId]|err]; [|done].
    rewrite SetOrderProvisioned_run, Updates_order_run.
    by destruct (next_fault (provisioning order w)).
Qed.

(** C2, as the code has it: when the provisioner succeeds and the store
    update that follows fails, [approveOrder] logs a warning with the
    store's error, still asks for the fulfillment notice, and answers
    "approved" with no error; the orders stay as they were. *)
Theorem approveOrder_store_failure_is_only_logged (param : string) (id : Z)
  (w : World) (order : ShopOrder.t) (email clientId subId : string)
  (err : error) (later : list (option error))
  (Hid : strconv.Atoi param = Ok id)
  (Hfaults : db_faults w = None :: Some err :: later)
  (Hfind : find_order id w = Some order)
  (Hstatus : ShopOrder.Status order = OrderStatusPendingReview)
  (Hprov : Provision order = Ok (email, clientId, subId)) :
  (approveOrder Provision param w).1 = jsonMsg "approved" None
  ∧ warnings (approveOrder Provision param w).2
    = ("order provision saved partially:", err) :: warnings w
  ∧ fulfillments (approveOrder Provision param w).2
    = (ShopOrder.TelegramId order, email) :: fulfillments w
  ∧ provision_calls (approveOrder Provision param w).2
    = order :: provision_calls w
  ∧ shop_orders (approveOrder Provision param w).2 = shop_orders w.
Proof.
  assert (next_fault w = None) as Hfirst
    by (unfold next_fault; by rewrite Hfaults).
  assert (next_fault (provisioning order w) = Some err) as Hsecond
    by (unfold next_fault, provisioning; cbn; by rewrite Hfaults).
  rewrite (approveOrder_run param id w Hid), GetOrder_run.
  rewrite Hfirst, Hfind. cbn [fst]. rewrite Hstatus, String.eqb_refl.
  cbn [negb]. rewrite Hprov.
  rewrite SetOrderProvisioned_run, Updates_order_run, Hsecond. by cbn.
Qed.

End Approval.

Lemma approveOrder_requires_pending_review_witness :
  approveOrder provisioner7 "7" world7
    = (jsonMsg "approved" None, world7_approved)
  ∧ (approveOrder provisioner7 "7" world7_approved).1
    = jsonMsg "order not ready" None
  ∧ untouched world7_approved (approveOrder provisioner7 "7" world7_approved).2.
Proof.
  split; [by vm_compute|].
  pose proof (approveOrder_requires_pending_review provisioner7 "7" 7
                world7_approved eq_refl) as (_ & Hnot_ready & _).
  destruct (Hnot_ready order7_approved) as (Hanswer & _ & Hsame);
    [reflexivity | | by split].
  unfold order7_approved, ShopOrder.Status, OrderStatusPendingReview.
  discriminate.
Defined.

(** C1 as stated fails: the approval of an order that is already APPROVED
    does not fail: it is answered "order not ready" with no error, in the
    form in which the approval that went through was answered; the
    approval of an id that no order has does fail. *)
Lemma approveOrder_not_ready_is_no_failure :
  (GetOrder 7 world7_approved).1 = Ok order7_approved
  ∧ ShopOrder.Status order7_approved = OrderStatusApproved
  ∧ (approveOrder provisioner7 "7" world7_approved).1
    = jsonMsg "order not ready" None
  ∧ reports_failure (approveOrder provisioner7 "7" world7_approved).1 = false
  ∧ (approveOrder provisioner7 "7" world7).1 = jsonMsg "approved" None
  ∧ reports_failure (approveOrder provisioner7 "7" world7).1 = false
  ∧ reports_failure (approveOrder provisioner7 "7" empty_world).1 = true
  ∧ ¬ (∀ Provision param id w order,
         strconv.Atoi param = Ok id →
         (GetOrder id w).1 = Ok order →
         ShopOrder.Status order ≠ OrderStatusPendingReview →
         reports_failure (approveOrder Provision param w).1 = true).
Proof.
  split; [by vm_compute|]. split; [by vm_compute|]. split; [by vm_compute|].
  split; [by vm_compute|]. split; [by vm_compute|]. split; [by vm_compute|].
  split; [by vm_compute|].
  intros H.
  specialize (H provisioner7 "7" 7 world7_approved order7_approved
                eq_refl eq_refl).
  assert (reports_failure (approveOrder provisioner7 "7" world7_approved).1
          = true) as Habs by (apply H; discriminate).
  by vm_compute in Habs.
Qed.

Lemma approveOrder_store_failure_is_only_logged_witness :
  (approveOrder provisioner7 "7" world7_failing).1 = jsonMsg "approved" None
  ∧ warnings (approveOrder provisioner7 "7" world7_failing).2
    = [("order provision saved partially:", "database is locked")]
  ∧ fulfillments (approveOrder provisioner7 "7" world7_failing).2
    = [(1001, "user7@x")]
  ∧ provision_calls (approveOrder provisioner7 "7" world7_failing).2
    = [order7]
  ∧ shop_orders (approveOrder provisioner7 "7" world7_failing).2 = [order7].
Proof.
  apply (approveOrder_store_failure_is_only_logged provisioner7 "7" 7
           world7_failing order7 "user7@x" "cid-1" "sub-1"
           "database is locked" []); reflexivity.
Defined.

(** C2 as stated fails: with the store update failing after the
    provisioner succeeded, the caller gets the very answer of an approval
    that went through, while the order is still in PENDING_REVIEW and the
    account exists. *)
Lemma approveOrder_store_failure_answers_approved :
  (approveOrder provisioner7 "7" world7_failing).1
    = (approveOrder provisioner7 "7" world7).1
  ∧ (approveOrder provisioner7 "7" world7_failing).1 = jsonMsg "approved" None
  ∧ (SetOrderProvisioned 7 "user7@x" "cid-1" "sub-1"
       (provisioning order7 world7_failing)).1 = Some "database is locked"
  ∧ provisioner7 order7 = Ok ("user7@x", "cid-1", "sub-1")
  ∧ provision_calls (approveOrder provisioner7 "7" world7_failing).2
    = [order7]
  ∧ shop_orders (approveOrder provisioner7 "7" world7_failing).2 = [order7]
  ∧ ShopOrder.Status order7 = OrderStatusPendingReview.
Proof. repeat split; by vm_compute. Qed.

(** ** Rejection *)

Lemma find_updated_rows (id : Z) (columns : ShopOrder.t → ShopOrder.t)
  (rows : list ShopOrder.t) :
  (∀ o, ShopOrder.Id (columns o) = ShopOrder.Id o) →
  List.find (λ o, ShopOrder.Id o =? id) (updated_rows id columns rows)
  = columns <$> List.find (λ o, ShopOrder.Id o =? id) rows.
Proof.
  intros Hcol. unfold updated_rows.
  induction rows as [|o rows IH]; [done|]. cbn.
  destruct (Z.eqb_spec (ShopOrder.Id o) id) as [Heq|Hne].
  - rewrite Hcol. destruct (Z.eqb_spec (ShopOrder.Id o) id); [done|lia].
  - destruct (Z.eqb_spec (ShopOrder.Id o) id); [lia|]. exact IH.
Qed.

Lemma rejectOrder_run (param : string) (id : Z) (w : World) :
  strconv.Atoi param = Ok id →
  rejectOrder param w =
  (jsonMsg "rejected" (next_fault w),
   match next_fault w with
   | Some _ => after_query w
   | None =>
       with_orders
         (updated_rows id (status_columns OrderStatusRejected (clock w))
            (shop_orders w)) (after_query w)
   end).
Proof.
  intros Hid. unfold rejectOrder. rewrite Hid.
  unfold mbind, M_bind, bind.
  rewrite UpdateOrderStatus_run, Updates_order_run.
  by destruct (next_fault w).
Qed.

(** C8, as the code has it: [rejectOrder] checks neither the status nor the
    existence of the order. Its answer is "rejected" with the error of the
    store update, if any. When the update succeeds, every order with the
    id, whatever its status, has status REJECTED afterwards, with its other
    columns but the update time kept, and every other order is as before;
    an order that could be looked up before can be looked up after, and is
    REJECTED. When no order has the id, no order changes. *)
Theorem rejectOrder_rejects_existing (param : string) (id : Z) (w : World)
  (Hid : strconv.Atoi param = Ok id) :
  (rejectOrder param w).1 = jsonMsg "rejected" (next_fault w)
  ∧ (next_fault w = None →
     Forall2
       (λ o o',
          same_but_status o o'
          ∧ (ShopOrder.Id o = id →
             ShopOrder.Status o' = OrderStatusRejected)
          ∧ (ShopOrder.Id o ≠ id → o' = o))
       (shop_orders w) (shop_orders (rejectOrder param w).2))
  ∧ (∀ order, next_fault w = None → find_order id w = Some order →
     ∃ order',
       find_order id (rejectOrder param w).2 = Some order'
       ∧ ShopOrder.Status order' = OrderStatusRejected
       ∧ same_but_status order order')
  ∧ (find_order id w = None →
     shop_orders (rejectOrder param w).2 = shop_orders w).
Proof.
  rewrite (rejectOrder_run param id w Hid). cbn [fst snd].
  split; [done|]. split; [|split].
  - intros ->. cbn.
    eapply Forall2_impl; [apply updated_rows_status|].
    intros o o' (Hsame & Hst & Hother). split; [done|]. split; [|done].
    intros Ho. by apply Hst.
  - intros order -> Hfind. unfold find_order in *. cbn.
    rewrite find_updated_rows by done. rewrite Hfind. cbn.
    eexists. split; [done|]. split; [done|]. by repeat split.
  - intros Hnone. destruct (next_fault w); [done|]. cbn.
    apply updated_rows_none. by apply find_order_None.
Qed.

Lemma rejectOrder_rejects_existing_witness :
  (rejectOrder "7" world7_approved).1 = jsonMsg "rejected" None
  ∧ ∃ order',
      find_order 7 (rejectOrder "7" world7_approved).2 = Some order'
      ∧ ShopOrder.Status order' = OrderStatusRejected
      ∧ same_but_status order7_approved order'.
Proof.
  pose proof (rejectOrder_rejects_existing "7" 7 world7_approved eq_refl)
    as (Hresp & _ & Hfound & _).
  split; [exact Hresp|].
  apply Hfound; reflexivity.
Defined.

(** C8 as stated fails: rejecting an id that no order has is answered
    exactly like the rejection of an order, with no error. *)
Lemma rejectOrder_unknown_id_answers_rejected :
  find_order 7 empty_world = None
  ∧ (GetOrder 7 empty_world).1 = Err ErrRecordNotFound
  ∧ rejectOrder "7" empty_world = (jsonMsg "rejected" None, empty_world)
  ∧ (rejectOrder "7" empty_world).1 = (rejectOrder "7" world7).1.
Proof. repeat split; by vm_compute. Qed.

(** ** Receipts *)

Lemma getReceipt_run (param : string) (w : World) :
  getReceipt param w =
  match strconv.Atoi param with
  | Err _ => (AbortWithStatus StatusBadRequest, w)
  | Ok id =>
      (match (GetOrder id w).1 with
       | Err _ => AbortWithStatus StatusNotFound
       | Ok order =>
           if String.eqb (ShopOrder.ReceiptPath order) ""
           then AbortWithStatus StatusNotFound
           else if bool_decide
                     (filepath.Clean (ShopOrder.ReceiptPath order) ∈ files w)
           then File (filepath.Clean (ShopOrder.ReceiptPath order))
           else AbortWithStatus StatusNotFound
       end, after_query w)
  end.
Proof.
  unfold getReceipt. destruct (strconv.Atoi param) as [id|err]; [|done].
  unfold mbind, M_bind, bind. rewrite GetOrder_run. cbn [fst].
  destruct (next_fault w); [done|].
  destruct (find_order id w) as [order|]; [|done].
  destruct (String.eqb _ ""); [done|].
  unfold os_Stat, gets. cbn.
  by destruct (bool_decide _).
Qed.

(** Two lookups of one id found the same order. *)
Ltac same_order Hid Hget Hget' :=
  injection Hid as <-; rewrite Hget in Hget'; by simplify_eq.

(** C9, as the code has it: [getReceipt] serves a file exactly when the id
    parses, the order is found, its stored receipt path is not empty and
    the file at the cleaned stored path exists; the file served is the one
    at that cleaned path, wherever it lies. In every other case the answer
    is a bare status, 400 or 404. *)
Theorem getReceipt_serves_cleaned_path (param : string) (w : World)
  (path : string) :
  ((getReceipt param w).1 = File path ↔
   ∃ id order,
     strconv.Atoi param = Ok id
     ∧ (GetOrder id w).1 = Ok order
     ∧ ShopOrder.ReceiptPath order ≠ ""
     ∧ path = filepath.Clean (ShopOrder.ReceiptPath order)
     ∧ path ∈ files w)
  ∧ ((∃ served, (getReceipt param w).1 = File served)
     ∨ (getReceipt param w).1 = AbortWithStatus StatusBadRequest
     ∨ (getReceipt param w).1 = AbortWithStatus StatusNotFound).
Proof.
  rewrite getReceipt_run.
  destruct (strconv.Atoi param) as [id|err]; cbn [fst].
  2:{ split; [|by right; left]. split; [done|]. by intros (? & ? & ? & _). }
  destruct ((GetOrder id w).1) as [order|err] eqn:Hget.
  2:{ split; [|by right; right]. split; [done|].
      intros (id' & order' & Hid & Hget' & _). same_order Hid Hget Hget'. }
  destruct (String.eqb_spec (ShopOrder.ReceiptPath order) "") as [He|Hne].
  { split; [|by right; right]. split; [done|].
    intros (id' & order' & Hid & Hget' & Hp & _).
    same_order Hid Hget Hget'. }
  destruct (bool_decide_reflect
              (filepath.Clean (ShopOrder.ReceiptPath order) ∈ files w))
    as [Hin|Hout].
  - split; [|left; by eexists]. split.
    + intros [= <-]. by exists id, order.
    + intros (id' & order' & Hid & Hget' & _ & -> & _).
      same_order Hid Hget Hget'.
  - split; [|by right; right]. split; [done|].
    intros (id' & order' & Hid & Hget' & _ & -> & Hin).
    same_order Hid Hget Hget'.
Qed.

(** C9 as stated fails: with the receipts kept under [receipts], the
    handler serves files that are not under it. *)
Lemma getReceipt_serves_outside_root :
  (getReceipt "9" world_traversal).1 = File "../etc/passwd"
  ∧ within_root "receipts" "../etc/passwd" = false
  ∧ (getReceipt "10" world_traversal).1 = File "/etc/shadow"
  ∧ within_root "receipts" "/etc/shadow" = false
  ∧ within_root "receipts" "receipts/9.jpg" = true
  ∧ ¬ (∀ root param w path,
         root ≠ "" →
         (getReceipt param w).1 = File path → within_root root path = true).
Proof.
  split; [by vm_compute|]. split; [by vm_compute|]. split; [by vm_compute|].
  split; [by vm_compute|]. split; [by vm_compute|].
  intros H.
  specialize (H "receipts" "10" world_traversal "/etc/shadow").
  assert (within_root "receipts" "/etc/shadow" = true) as Habs
    by (apply H; [done | by vm_compute]).
  by vm_compute in Habs.
Qed.

(** ** The invariant of an order *)

Lemma updated_rows_Forall (P : ShopOrder.t → Prop) (id : Z)
  (columns : ShopOrder.t → ShopOrder.t) (rows : list ShopOrder.t) :
  (∀ o, o ∈ rows → ShopOrder.Id o = id → P (columns o)) →
  Forall P rows → Forall P (updated_rows id columns rows).
Proof.
  intros Hcol Hrows. unfold updated_rows. apply Forall_fmap, Forall_forall.
  intros o Ho. cbn.
  destruct (Z.eqb_spec (ShopOrder.Id o) id) as [Heq|Hne].
  - by apply Hcol.
  - by eapply Forall_forall in Hrows.
Qed.

Lemma Updates_order_invariant (id : Z) (columns : ShopOrder.t → ShopOrder.t)
  (w : World) :
  (∀ o, o ∈ shop_orders w → ShopOrder.Id o = id →
        order_invariant (columns o) = true) →
  store_invariant w → store_invariant (Updates_order id columns w).2.
Proof.
  intros Hcol Hw. rewrite Updates_order_run. unfold store_invariant.
  destruct (next_fault w); cbn; [done|]. by apply updated_rows_Forall.
Qed.

Lemma receipt_columns_invariant (receiptPath receiptFileId : string)
  (now : Z) (o : ShopOrder.t) :
  identity_empty o = true →
  order_invariant (receipt_columns receiptPath receiptFileId now o) = true.
Proof. unfold order_invariant, identity_empty. cbn. by intros ->. Qed.

Lemma status_columns_invariant (status : string) (now : Z)
  (o : ShopOrder.t) :
  open_or_rejected status → identity_empty o = true →
  order_invariant (status_columns status now o) = true.
Proof.
  unfold order_invariant, identity_empty. cbn.
  intros [ -> | [ -> | -> ] ] ->; reflexivity.
Qed.

Lemma provisioned_columns_invariant (email clientId subId : string)
  (now : Z) (o : ShopOrder.t) :
  email ≠ "" → clientId ≠ "" → subId ≠ "" →
  order_invariant (provisioned_columns email clientId subId now o) = true.
Proof.
  unfold order_invariant, identity_set. cbn. intros He Hc Hs.
  destruct (String.eqb_spec email ""), (String.eqb_spec clientId ""),
    (String.eqb_spec subId ""); done.
Qed.

(** C3, as the code has it: the operations that write the status keep the
    invariant of every stored order under the conditions the code leaves to
    its callers: [UpdateOrderReceipt] and [UpdateOrderStatus] (with a
    status other than APPROVED, as [rejectOrder] uses it) when the orders
    with the id carry no identity; [SetOrderProvisioned] when the three
    values it is given are not empty; [approveOrder] when the provisioner
    never answers with an empty value. *)
Theorem status_writers_keep_invariant (w : World) (Hw : store_invariant w) :
  (∀ id receiptPath receiptFileId,
     unprovisioned id w →
     store_invariant (UpdateOrderReceipt id receiptPath receiptFileId w).2)
  ∧ (∀ id status note,
     open_or_rejected status → unprovisioned id w →
     store_invariant (UpdateOrderStatus id status note w).2)
  ∧ (∀ id email clientId subId,
     email ≠ "" → clientId ≠ "" → subId ≠ "" →
     store_invariant (SetOrderProvisioned id email clientId subId w).2)
  ∧ (∀ param id,
     strconv.Atoi param = Ok id → unprovisioned id w →
     store_invariant (rejectOrder param w).2)
  ∧ (∀ Provision param,
     provisions_identity Provision →
     store_invariant (approveOrder Provision param w).2).
Proof.
  split; [|split; [|split; [|split]]].
  - intros id receiptPath receiptFileId Hid.
    rewrite UpdateOrderReceipt_run. apply Updates_order_invariant; [|done].
    intros o Ho Heq. apply receipt_columns_invariant. by apply Hid.
  - intros id status note Hst Hid.
    rewrite UpdateOrderStatus_run. apply Updates_order_invariant; [|done].
    intros o Ho Heq. apply status_columns_invariant; [done|]. by apply Hid.
  - intros id email clientId subId He Hc Hs.
    rewrite SetOrderProvisioned_run. apply Updates_order_invariant; [|done].
    intros o _ _. by apply provisioned_columns_invariant.
  - intros param id Hparam Hid.
    rewrite (rejectOrder_run param id w Hparam). cbn [snd].
    destruct (next_fault w); [done|].
    unfold store_invariant. cbn. apply updated_rows_Forall; [|done].
    intros o Ho Heq. apply status_columns_invariant; [|by apply Hid].
    by right; right.
  - intros Provision param Hprov.
    destruct (strconv.Atoi param) as [id|err] eqn:Hparam.
    2:{ unfold approveOrder. by rewrite Hparam. }
    rewrite (approveOrder_run Provision param id w Hparam).
    destruct ((GetOrder id w).1) as [order|err]; [|done].
    destruct (negb _); [done|].
    destruct (Provision order) as [[[email clientId] subId]|err] eqn:Hp;
      [|done].
    destruct (Hprov _ _ _ _ Hp) as (He & Hc & Hs).
    rewrite SetOrderProvisioned_run.
    pose proof (Updates_order_invariant (ShopOrder.Id order)
                  (provisioned_columns email clientId subId
                     (clock (provisioning order w)))
                  (provisioning order w)) as H.
    destruct (Updates_order _ _ _) as [saved w']. cbn [snd] in H.
    assert (store_invariant w') as Hw'.
    { apply H; [|done]. intros o _ _.
      by apply provisioned_columns_invariant. }
    by destruct saved.
Qed.

Lemma status_writers_keep_invariant_witness :
  store_invariant world7
  ∧ store_invariant (UpdateOrderReceipt 7 "receipts/7b.jpg" "file-7b" world7).2
  ∧ store_invariant (rejectOrder "7" world7).2
  ∧ store_invariant (approveOrder provisioner7 "7" world7).2.
Proof.
  assert (store_invariant world7) as Hw
    by (repeat constructor).
  assert (unprovisioned 7 world7) as Hun.
  { intros o Ho _. apply list_elem_of_singleton in Ho. by subst o. }
  pose proof (status_writers_keep_invariant world7 Hw)
    as (Hreceipt & _ & _ & Hreject & Happrove).
  split; [exact Hw|]. split; [by apply Hreceipt|].
  split; [by apply (Hreject "7" 7)|].
  apply Happrove. intros order email clientId subId [= <- <- <-]. done.
Defined.

(** C3 as stated fails: a receipt uploaded for an approved order, or the
    rejection of an approved order, leaves an order that is not APPROVED
    with its identity fields set; and [SetOrderProvisioned] stores the
    values it is given, empty or not. *)
Lemma status_writers_break_invariant :
  store_invariant world7_approved
  ∧ ¬ store_invariant
        (UpdateOrderReceipt 7 "receipts/7b.jpg" "file-7b" world7_approved).2
  ∧ ¬ store_invariant (rejectOrder "7" world7_approved).2
  ∧ store_invariant world7
  ∧ ¬ store_invariant (SetOrderProvisioned 7 "" "" "" world7).2.
Proof.
  unfold store_invariant.
  split; [repeat constructor|]. split; [|split; [|split]].
  - vm_compute. intros H. apply Forall_inv in H. discriminate.
  - vm_compute. intros H. apply Forall_inv in H. discriminate.
  - repeat constructor.
  - vm_compute. intros H. apply Forall_inv in H. discriminate.
Qed.

(** ** Storefront inbounds *)

Lemma enabled_map_snoc (rows : list ShopInbound.t) (r : ShopInbound.t) :
  enabled_map (rows ++ [r])
  = <[ShopInbound.InboundId r := ShopInbound.Enabled r]> (enabled_map rows).
Proof. unfold enabled_map. by rewrite foldl_snoc. Qed.

Lemma enabled_map_absent (rows : list ShopInbound.t) (k : Z) :
  (∀ r, r ∈ rows → ShopInbound.InboundId r ≠ k) →
  enabled_map rows !! k = None.
Proof.
  induction rows as [|r rows IH] using rev_ind; intros H; [done|].
  rewrite enabled_map_snoc, lookup_insert_ne.
  - apply IH. intros r' Hr'. apply H, elem_of_app. by left.
  - apply H, elem_of_app. right. by apply list_elem_of_singleton.
Qed.

Lemma enabled_map_present (rows : list ShopInbound.t) (k : Z) (b : bool) :
  enabled_map rows !! k = Some b →
  ∃ r, r ∈ rows ∧ ShopInbound.InboundId r = k ∧ ShopInbound.Enabled r = b.
Proof.
  induction rows as [|r rows IH] using rev_ind; [done|].
  rewrite enabled_map_snoc.
  destruct (decide (ShopInbound.InboundId r = k)) as [<-|Hne].
  - rewrite lookup_insert_eq. intros [= <-]. exists r.
    split; [|done]. apply elem_of_app. right. by apply list_elem_of_singleton.
  - rewrite lookup_insert_ne by done. intros H.
    destruct (IH H) as (r' & Hin & Hr'). exists r'.
    split; [|done]. apply elem_of_app. by left.
Qed.

Lemma enabled_map_unique (rows : list ShopInbound.t) (r : ShopInbound.t) :
  NoDup (ShopInbound.InboundId <$> rows) → r ∈ rows →
  enabled_map rows !! ShopInbound.InboundId r = Some (ShopInbound.Enabled r).
Proof.
  induction rows as [|x rows IH] using rev_ind; intros Hnd Hin.
  { by apply elem_of_nil in Hin. }
  rewrite fmap_app in Hnd. apply NoDup_app in Hnd as (Hrows & Hfresh & _).
  rewrite enabled_map_snoc.
  apply elem_of_app in Hin as [Hin|Hin].
  - rewrite lookup_insert_ne; [by apply IH|].
    intros Heq. apply (Hfresh (ShopInbound.InboundId r)).
    + apply list_elem_of_fmap. by exists r.
    + rewrite <- Heq. cbn. by left.
  - apply list_elem_of_singleton in Hin as ->. apply lookup_insert_eq.
Qed.

Lemma last_row_snoc (k : Z) (rows : list ShopInbound.t) (r : ShopInbound.t) :
  last_row k (rows ++ [r])
  = if ShopInbound.InboundId r =? k then Some r else last_row k rows.
Proof.
  unfold last_row. rewrite List.filter_app. cbn.
  destruct (ShopInbound.InboundId r =? k).
  - apply last_snoc.
  - by rewrite app_nil_r.
Qed.

Lemma enabled_map_last_row (rows : list ShopInbound.t) (k : Z) :
  enabled_map rows !! k = ShopInbound.Enabled <$> last_row k rows.
Proof.
  induction rows as [|r rows IH] using rev_ind; [done|].
  rewrite enabled_map_snoc, last_row_snoc.
  destruct (Z.eqb_spec (ShopInbound.InboundId r) k) as [<-|Hne].
  - by rewrite lookup_insert_eq.
  - by rewrite lookup_insert_ne.
Qed.

#[local] Instance may_precede_by_id_total : Total (may_precede by_id).
Proof.
  intros a b. unfold may_precede, by_id.
  destruct (Z.ltb_spec (ShopInboundOption.Id b) (ShopInboundOption.Id a)),
    (Z.ltb_spec (ShopInboundOption.Id a) (ShopInboundOption.Id b));
    auto; lia.
Qed.

#[local] Instance may_precede_by_id_trans : Transitive (may_precede by_id).
Proof.
  intros a b c. unfold may_precede, by_id.
  rewrite !Z.ltb_ge. lia.
Qed.

Lemma sort_Slice_by_id_sorted (options : list ShopInboundOption.t) :
  StronglySorted
    (λ a b, ShopInboundOption.Id a <= ShopInboundOption.Id b)
    (sort_Slice by_id options).
Proof.
  pose proof (StronglySorted_merge_sort (may_precede by_id) options) as H.
  unfold sort_Slice. induction H as [|a l Hl IH Ha]; constructor; [done|].
  eapply Forall_impl; [exact Ha|]. intros b. unfold may_precede, by_id.
  by rewrite Z.ltb_ge.
Qed.

Lemma ListInbounds_run (s : ShopService) (w : World)
  (inbounds : list Inbound.t) :
  GetAllInbounds (inboundService s) = Ok inbounds →
  ListInbounds s w =
  (Ok (sort_Slice by_id
         (inbound_option (enabled_map (rows_read w))
            (bool_decide (length (rows_read w) = 0%nat)) <$> inbounds)),
   after_query w).
Proof.
  intros Hinb. unfold ListInbounds, rows_read. rewrite Hinb.
  unfold Find_shop_inbounds, mbind, M_bind, bind, db_query.
  by destruct (next_fault w).
Qed.

(** C5, as the code has it: when the configured inbounds can be read,
    [ListInbounds] returns one entry per configured inbound, in ascending
    order of inbound id. The override rows it reads are those of the
    table, and none when the query for them fails. With no row read every
    entry is enabled. With at least one, an entry is enabled exactly when
    the last row read for its inbound is an enabling one, so an entry
    whose inbound has no row is disabled; and, the rows read holding at
    most one row per inbound, an entry is enabled exactly when its
    inbound has a row that enables it. *)
Theorem ListInbounds_default_policy (s : ShopService) (w : World)
  (inbounds : list Inbound.t)
  (Hinb : GetAllInbounds (inboundService s) = Ok inbounds) :
  ∃ options,
    (ListInbounds s w).1 = Ok options
    ∧ (∃ entry, options ≡ₚ entry <$> inbounds
                ∧ ∀ inbound, describes inbound (entry inbound))
    ∧ StronglySorted
        (λ a b, ShopInboundOption.Id a <= ShopInboundOption.Id b) options
    ∧ rows_read w = match next_fault w with
                    | Some _ => []
                    | None => shop_inbounds w
                    end
    ∧ (rows_read w = [] →
       ∀ o, o ∈ options → ShopInboundOption.Enabled o = true)
    ∧ (rows_read w ≠ [] →
       ∀ o, o ∈ options →
         (ShopInboundOption.Enabled o = true ↔
          ∃ r, last_row (ShopInboundOption.Id o) (rows_read w) = Some r
               ∧ ShopInbound.Enabled r = true)
         ∧ ((∀ r, r ∈ rows_read w →
                  ShopInbound.InboundId r ≠ ShopInboundOption.Id o) →
            ShopInboundOption.Enabled o = false)
         ∧ (NoDup (ShopInbound.InboundId <$> rows_read w) →
            (ShopInboundOption.Enabled o = true ↔
             ∃ r, r ∈ rows_read w
                  ∧ ShopInbound.InboundId r = ShopInboundOption.Id o
                  ∧ ShopInbound.Enabled r = true))).
Proof.
  rewrite (ListInbounds_run s w inbounds Hinb). cbn [fst].
  set (rows := rows_read w).
  set (entry := inbound_option (enabled_map rows)
                  (bool_decide (length rows = 0%nat))).
  assert (sort_Slice by_id (entry <$> inbounds) ≡ₚ entry <$> inbounds)
    as Hperm by apply merge_sort_Permutation.
  eexists. split; [done|]. split; [|split; [|split; [|split]]].
  - exists entry. split; [done|]. by intros inbound.
  - apply sort_Slice_by_id_sorted.
  - done.
  - intros Hnone o Ho. rewrite Hperm in Ho.
    apply list_elem_of_fmap in Ho as (inbound & -> & _).
    unfold entry. by rewrite Hnone.
  - intros Hsome o Ho. rewrite Hperm in Ho.
    apply list_elem_of_fmap in Ho as (inbound & -> & _).
    assert (bool_decide (length rows = 0%nat) = false) as Hlen.
    { apply bool_decide_eq_false. by destruct rows. }
    unfold entry, inbound_option. rewrite Hlen. cbn.
    split; [|split].
    + rewrite enabled_map_last_row.
      destruct (last_row (Inbound.Id inbound) rows) as [r|]; cbn.
      * split; [intros He; by exists r | by intros (r' & [= <-] & He)].
      * split; [done | by intros (r' & ? & _)].
    + intros Habsent. by rewrite enabled_map_absent.
    + intros Huniq. split.
      * destruct (enabled_map rows !! Inbound.Id inbound)
          as [b|] eqn:Hlook; [|done].
        cbn. intros ->. by apply enabled_map_present.
      * intros (r & Hr & <- & Hen).
        by rewrite (enabled_map_unique _ r Huniq Hr), Hen.
Qed.

Example ListInbounds_after_SetInboundEnabled :
  shop_inbounds world3 = [ShopInbound.mk 1 3 true 120 120]
  ∧ (ListInbounds shop3 world3).1
    = Ok [ShopInboundOption.mk 1 "one" "trojan" 2053 false;
          ShopInboundOption.mk 3 "three" "vmess" 443 true;
          ShopInboundOption.mk 5 "five" "vless" 8443 false]
  ∧ (ListInbounds shop3 empty_world).1
    = Ok [ShopInboundOption.mk 1 "one" "trojan" 2053 true;
          ShopInboundOption.mk 3 "three" "vmess" 443 true;
          ShopInboundOption.mk 5 "five" "vless" 8443 true]
  ∧ (EnabledInboundIds shop3 world3).1 = Ok [3].
Proof. repeat split; by vm_compute. Qed.

Lemma ListInbounds_default_policy_witness :
  ∃ options,
    (ListInbounds shop3 world3).1 = Ok options
    ∧ StronglySorted
        (λ a b, ShopInboundOption.Id a <= ShopInboundOption.Id b) options
    ∧ ∀ o, o ∈ options →
        (ShopInboundOption.Enabled o = true ↔
         ∃ r, r ∈ shop_inbounds world3
              ∧ ShopInbound.InboundId r = ShopInboundOption.Id o
              ∧ ShopInbound.Enabled r = true).
Proof.
  destruct (ListInbounds_default_policy shop3 world3 _ eq_refl)
    as (options & Hres & _ & Hsorted & _ & _ & Hsome).
  exists options. split; [exact Hres|]. split; [exact Hsorted|].
  intros o Ho.
  destruct (Hsome ltac:(discriminate) o Ho) as (_ & _ & Hrow).
  apply Hrow. apply NoDup_singleton.
Defined.

(** C5 as stated fails. After a [SetInboundEnabled] whose lookup failed, the
    table holds two rows for inbound 3, the first enabling and the last
    not, and the entry of inbound 3 is disabled though a row for it exists
    with the flag set. And when the query for the table fails, every
    entry is enabled, though the table holds a row that hides inbound 5
    and none for inbound 1. *)
Lemma ListInbounds_enabling_row_does_not_decide :
  shop_inbounds (SetInboundEnabled 3 false world35_failing_once).2
  = [ShopInbound.mk 1 3 true 100 100; ShopInbound.mk 2 5 false 100 100;
     ShopInbound.mk 3 3 false 120 120]
  ∧ (ListInbounds shop3 (SetInboundEnabled 3 false world35_failing_once).2).1
    = Ok [ShopInboundOption.mk 1 "one" "trojan" 2053 false;
          ShopInboundOption.mk 3 "three" "vmess" 443 false;
          ShopInboundOption.mk 5 "five" "vless" 8443 false]
  ∧ ShopInbound.mk 1 3 true 100 100
    ∈ shop_inbounds (SetInboundEnabled 3 false world35_failing_once).2
  ∧ shop_inbounds world35_failing_once
    = [ShopInbound.mk 1 3 true 100 100; ShopInbound.mk 2 5 false 100 100]
  ∧ (ListInbounds shop3 world35_failing_once).1
    = Ok [ShopInboundOption.mk 1 "one" "trojan" 2053 true;
          ShopInboundOption.mk 3 "three" "vmess" 443 true;
          ShopInboundOption.mk 5 "five" "vless" 8443 true].
Proof.
  split; [by vm_compute|]. split; [by vm_compute|].
  split; [by left|]. split; [by vm_compute|]. by vm_compute.
Qed.

Lemma Updates_shop_inbound_rows (id : Z)
  (columns : ShopInbound.t → ShopInbound.t) (w : World) :
  shop_inbounds (Updates_shop_inbound id columns w).2 =
  match next_fault w with
  | Some _ => shop_inbounds w
  | None =>
      (λ r, if ShopInbound.Id r =? id then columns r else r)
        <$> shop_inbounds w
  end.
Proof.
  unfold Updates_shop_inbound, mbind, M_bind, bind, db_query.
  by destruct (next_fault w).
Qed.

Lemma Create_shop_inbound_rows (inboundId : Z) (enabled : bool)
  (createdAt updatedAt : Z) (w : World) :
  shop_inbounds
    (Create_shop_inbound inboundId enabled createdAt updatedAt w).2 =
  match next_fault w with
  | Some _ => shop_inbounds w
  | None =>
      (shop_inbounds w ++
       [ShopInbound.mk (next_id (shop_inbounds w)) inboundId enabled
          createdAt updatedAt])%list
  end.
Proof.
  unfold Create_shop_inbound, mbind, M_bind, bind, db_query.
  by destruct (next_fault w).
Qed.

(** [SetInboundEnabled] keeps the override table at one row per inbound, as
    long as its lookup of the row is answered. *)
Lemma SetInboundEnabled_one_row_per_inbound (inboundId : Z) (enabled : bool)
  (w : World) :
  next_fault w = None →
  NoDup (ShopInbound.InboundId <$> shop_inbounds w) →
  NoDup (ShopInbound.InboundId <$>
           shop_inbounds (SetInboundEnabled inboundId enabled w).2).
Proof.
  intros Hread Huniq. unfold SetInboundEnabled, First_shop_inbound.
  unfold mbind, M_bind, bind, db_query. rewrite Hread.
  cbn [mret M_ret ret gets shop_inbounds after_query].
  destruct (List.find _ (shop_inbounds w)) as [existing|] eqn:Hfind;
    unfold time_Now, gets.
  - rewrite Updates_shop_inbound_rows.
    destruct (next_fault (after_query w)); [done|]. cbn.
    rewrite <- list_fmap_compose.
    erewrite list_fmap_ext; [exact Huniq|].
    intros _ r _. cbn. by destruct (_ =? _).
  - rewrite Create_shop_inbound_rows.
    destruct (next_fault (after_query w)); [done|]. cbn.
    rewrite fmap_app. apply NoDup_app. split; [done|]. split.
    + intros k Hk Hnew. cbn in Hnew. apply list_elem_of_singleton in Hnew.
      subst k. apply list_elem_of_fmap in Hk as (r & Hid & Hr).
      apply list_elem_of_In in Hr.
      pose proof (List.find_none _ _ Hfind r Hr) as Hno. cbn in Hno. lia.
    + apply NoDup_singleton.
Qed.

(** ** Two approvals at once *)

Section Interleaving.

Variable Provision : ShopOrder.t → result (string * string * string).

(** The steps, taken one after the other, are [approveOrder]. *)
Lemma run_alone_approveOrder (param : string) (w : World) :
  run_alone Provision (Arrived param) w
  = (Answered (approveOrder Provision param w).1,
     (approveOrder Provision param w).2).
Proof.
  unfold run_alone, mbind, M_bind, bind.
  destruct (strconv.Atoi param) as [id|err] eqn:Hid.
  2:{ unfold approveOrder. cbn. by rewrite Hid. }
  rewrite (approveOrder_run Provision param id w Hid).
  cbn [approve_step]. rewrite Hid.
  unfold mbind, M_bind, bind. rewrite GetOrder_run. cbn [fst].
  destruct (next_fault w); [done|].
  destruct (find_order id w) as [order|]; [|done].
  destruct (negb _); [done|].
  cbn [mret M_ret ret approve_step].
  unfold mbind, M_bind, bind, ProvisionOrder at 1.
  fold (provisioning order w).
  destruct (Provision order) as [[[email clientId] subId]|err]; [|done].
  cbn [mret M_ret ret approve_step].
  unfold mbind, M_bind, bind.
  destruct (SetOrderProvisioned _ _ _ _ _) as [[err|] w']; done.
Qed.

Lemma run_two_serial (first : bool) (a b : Approval) (w : World) :
  run_two Provision [first; first; first; negb first; negb first; negb first] a b w
  = if first
    then let '(a', w1) := run_alone Provision a w in
         let '(b', w2) := run_alone Provision b w1 in (a', b', w2)
    else let '(b', w1) := run_alone Provision b w in
         let '(a', w2) := run_alone Provision a w1 in (a', b', w2).
Proof.
  destruct first; cbn [run_two negb]; unfold run_alone, mbind, M_bind, bind.
  - destruct (approve_step Provision a w) as [a1 w1].
    destruct (approve_step Provision a1 w1) as [a2 w2].
    destruct (approve_step Provision a2 w2) as [a3 w3].
    destruct (approve_step Provision b w3) as [b1 w4].
    destruct (approve_step Provision b1 w4) as [b2 w5].
    by destruct (approve_step Provision b2 w5) as [b3 w6].
  - destruct (approve_step Provision b w) as [b1 w1].
    destruct (approve_step Provision b1 w1) as [b2 w2].
    destruct (approve_step Provision b2 w2) as [b3 w3].
    destruct (approve_step Provision a w3) as [a1 w4].
    destruct (approve_step Provision a1 w4) as [a2 w5].
    by destruct (approve_step Provision a2 w5) as [a3 w6].
Qed.

Lemma approveOrder_approves (param : string) (id : Z) (w : World)
  (order : ShopOrder.t) (email clientId subId : string) :
  strconv.Atoi param = Ok id →
  next_fault w = None → next_fault (after_query w) = None →
  find_order id w = Some order →
  ShopOrder.Status order = OrderStatusPendingReview →
  Provision order = Ok (email, clientId, subId) →
  approveOrder Provision param w
  = (jsonMsg "approved" None,
     approved_world id order email clientId subId w).
Proof.
  intros Hid Hfirst Hsecond Hfind Hstatus Hprov.
  rewrite (approveOrder_run Provision param id w Hid), GetOrder_run.
  rewrite Hfirst, Hfind. cbn [fst]. rewrite Hstatus, String.eqb_refl.
  cbn [negb]. rewrite Hprov.
  rewrite SetOrderProvisioned_run, Updates_order_run.
  assert (next_fault (provisioning order w) = None) as ->
    by exact Hsecond.
  by rewrite (find_order_Id id w order Hfind).
Qed.

Lemma approveOrder_again (param : string) (id : Z) (w : World)
  (order : ShopOrder.t) (email clientId subId : string) :
  strconv.Atoi param = Ok id →
  next_fault (approved_world id order email clientId subId w) = None →
  find_order id w = Some order →
  approveOrder Provision param
    (approved_world id order email clientId subId w)
  = (jsonMsg "order not ready" None,
     after_query (approved_world id order email clientId subId w)).
Proof.
  intros Hid Hthird Hfind.
  rewrite (approveOrder_run Provision param id _ Hid), GetOrder_run.
  rewrite Hthird. unfold find_order at 1. cbn [shop_orders approved_world].
  rewrite find_updated_rows by done.
  unfold find_order in Hfind. rewrite Hfind. done.
Qed.

(** C4, as the code has it: [approveOrder] takes no lock and re-checks
    nothing. When two approvals of an order in PENDING_REVIEW run one after
    the other, whichever goes first, and the provisioner and the store
    work, the provisioner is called exactly once, the order ends APPROVED
    with the identity the provisioner gave, one request is answered
    "approved" and the other "order not ready". *)
Theorem serial_approvals_provision_once (first : bool) (param : string)
  (id : Z) (w : World) (order : ShopOrder.t) (email clientId subId : string)
  (Hid : strconv.Atoi param = Ok id)
  (Hfaults : db_faults w = [])
  (Hfind : find_order id w = Some order)
  (Hstatus : ShopOrder.Status order = OrderStatusPendingReview)
  (Hprov : Provision order = Ok (email, clientId, subId)) :
  ∃ a b w',
    run_two Provision [first; first; first; negb first; negb first; negb first]
      (Arrived param) (Arrived param) w = (a, b, w')
    ∧ provision_calls w' = order :: provision_calls w
    ∧ (if first then a else b) = Answered (jsonMsg "approved" None)
    ∧ (if first then b else a) = Answered (jsonMsg "order not ready" None)
    ∧ ∃ order',
        find_order id w' = Some order'
        ∧ ShopOrder.Status order' = OrderStatusApproved
        ∧ ShopOrder.ClientEmail order' = email
        ∧ ShopOrder.ClientId order' = clientId
        ∧ ShopOrder.ClientSubId order' = subId.
Proof.
  assert (next_fault w = None) as H1 by (unfold next_fault; by rewrite Hfaults).
  assert (next_fault (after_query w) = None) as H2
    by (unfold next_fault, after_query; cbn; by rewrite Hfaults).
  assert (next_fault (approved_world id order email clientId subId w) = None)
    as H3 by (unfold next_fault, approved_world; cbn; by rewrite Hfaults).
  rewrite run_two_serial, !run_alone_approveOrder.
  rewrite (approveOrder_approves param id w order email clientId subId)
    by done.
  cbn [fst snd].
  rewrite (approveOrder_again param id w order email clientId subId) by done.
  cbn [fst snd].
  assert (find_order id
            (after_query (approved_world id order email clientId subId w))
          = Some (provisioned_columns email clientId subId (clock w) order))
    as Hfound.
  { unfold find_order. cbn. rewrite find_updated_rows by done.
    unfold find_order in Hfind. by rewrite Hfind. }
  destruct first; do 3 eexists; (split; [reflexivity|]);
    (split; [done|]); (split; [done|]); (split; [done|]);
    eexists; (split; [exact Hfound|]); done.
Qed.

End Interleaving.

Lemma serial_approvals_provision_once_witness :
  ∃ a b w',
    run_two provisioner7 [true; true; true; false; false; false]
      (Arrived "7") (Arrived "7") world7 = (a, b, w')
    ∧ provision_calls w' = [order7]
    ∧ a = Answered (jsonMsg "approved" None)
    ∧ b = Answered (jsonMsg "order not ready" None)
    ∧ ∃ order',
        find_order 7 w' = Some order'
        ∧ ShopOrder.Status order' = OrderStatusApproved
        ∧ ShopOrder.ClientEmail order' = "user7@x"
        ∧ ShopOrder.ClientId order' = "cid-1"
        ∧ ShopOrder.ClientSubId order' = "sub-1".
Proof.
  apply (serial_approvals_provision_once provisioner7 true "7" 7 world7
           order7 "user7@x" "cid-1" "sub-1"); reflexivity.
Defined.

(** C4 as stated fails: when the second approval reads the order before
    the first has written it, both find it in PENDING_REVIEW, the
    provisioner is called twice for the one order, and both requests are
    answered "approved". *)
Lemma interleaved_approvals_provision_twice :
  run_two provisioner7 [true; false; true; false; true; false]
    (Arrived "7") (Arrived "7") world7
  = (Answered (jsonMsg "approved" None), Answered (jsonMsg "approved" None),
     mkWorld [order7_approved] [] [] 120 ∅ [order7; order7]
       [(1001, "user7@x"); (1001, "user7@x")] [])
  ∧ length (provision_calls
              (run_two provisioner7 [true; false; true; false; true; false]
                 (Arrived "7") (Arrived "7") world7).2) = 2%nat.
Proof. split; by vm_compute. Qed.

(** In the scenario, of the twenty ways the two requests can take turns,
    only the two in which one has answered before the other arrives call
    the provisioner once; every other one calls it twice. *)
Example overlapping_approvals_provision_twice :
  length complete_schedules = 20%nat
  ∧ Forall
      (λ s,
         length (provision_calls
                   (run_two provisioner7 s (Arrived "7") (Arrived "7")
                      world7).2)
         = if serial s then 1%nat else 2%nat)
      complete_schedules.
Proof.
  split; [by vm_compute|].
  apply (bool_decide_unpack _). by vm_compute.
Qed.

(** ** The listings *)

#[local] Instance descending_total {A} (key : A → Z) : Total (descending key).
Proof. intros a b. unfold descending. lia. Qed.

#[local] Instance descending_trans {A} (key : A → Z)
  : Transitive (descending key).
Proof. intros a b c. unfold descending. lia. Qed.

Lemma Order_desc_sorted {A} (key : A → Z) (rows : list A) :
  StronglySorted (λ a b, key b <= key a) (Order_desc key rows).
Proof. apply (StronglySorted_merge_sort (descending key)). Qed.

Lemma Order_desc_perm {A} (key : A → Z) (rows : list A) :
  Order_desc key rows ≡ₚ rows.
Proof. apply merge_sort_Permutation. Qed.

Lemma filter_submseteq {A} (keep : A → bool) (rows : list A) :
  List.filter keep rows ⊆+ rows.
Proof.
  induction rows as [|r rows IH]; cbn; [done|].
  destruct (keep r); [by apply submseteq_skip | by apply submseteq_cons].
Qed.

Lemma elem_of_filter {A} (keep : A → bool) (rows : list A) (r : A) :
  r ∈ List.filter keep rows ↔ r ∈ rows ∧ keep r = true.
Proof. rewrite !list_elem_of_In. apply List.filter_In. Qed.

Lemma ListOrders_run (w : World) :
  ListOrders w =
  (match next_fault w with
   | Some err => ([], Some err)
   | None => (Order_desc ShopOrder.Id (shop_orders w), None)
   end, after_query w).
Proof.
  unfold ListOrders, mbind, M_bind, bind, db_query.
  by destruct (next_fault w).
Qed.

Lemma ListOrdersByTelegramId_run (tgId : Z) (w : World) :
  ListOrdersByTelegramId tgId w =
  (match next_fault w with
   | Some err => ([], Some err)
   | None =>
       (Order_desc ShopOrder.Id
          (List.filter (λ o, ShopOrder.TelegramId o =? tgId) (shop_orders w)),
        None)
   end, after_query w).
Proof.
  unfold ListOrdersByTelegramId, mbind, M_bind, bind, db_query.
  by destruct (next_fault w).
Qed.

(** X1: [ListOrders] returns every stored order, each as often as it is
    stored, the greatest id first, and no error; when the database fails
    it returns no order and the database's error. It changes no order. *)
Theorem ListOrders_newest_first (w : World) :
  match next_fault w with
  | Some err => (ListOrders w).1 = ([], Some err)
  | None =>
      (ListOrders w).1.2 = None
      ∧ (ListOrders w).1.1 ≡ₚ shop_orders w
      ∧ StronglySorted (λ a b, ShopOrder.Id b <= ShopOrder.Id a)
          (ListOrders w).1.1
  end
  ∧ shop_orders (ListOrders w).2 = shop_orders w.
Proof.
  rewrite ListOrders_run. cbn [fst snd]. split; [|done].
  destruct (next_fault w); [done|]. cbn [fst snd].
  split; [done|]. split; [apply Order_desc_perm | apply Order_desc_sorted].
Qed.

(** X2: [ListOrdersByTelegramId] returns exactly the stored orders of the
    given customer, each as often as it is stored and the greatest id
    first: no order of another customer is in the result, none of this
    customer is missing, and the result is part of what [ListOrders]
    returns. *)
Theorem ListOrdersByTelegramId_scoped (tgId : Z) (w : World) :
  match next_fault w with
  | Some err => (ListOrdersByTelegramId tgId w).1 = ([], Some err)
  | None =>
      (ListOrdersByTelegramId tgId w).1.2 = None
      ∧ (∀ o, o ∈ (ListOrdersByTelegramId tgId w).1.1 ↔
              o ∈ shop_orders w ∧ ShopOrder.TelegramId o = tgId)
      ∧ (ListOrdersByTelegramId tgId w).1.1 ⊆+ (ListOrders w).1.1
      ∧ StronglySorted (λ a b, ShopOrder.Id b <= ShopOrder.Id a)
          (ListOrdersByTelegramId tgId w).1.1
  end.
Proof.
  rewrite ListOrdersByTelegramId_run, ListOrders_run. cbn [fst snd].
  destruct (next_fault w); [done|]. cbn [fst snd].
  split; [done|]. split; [|split; [|apply Order_desc_sorted]].
  - intros o. rewrite Order_desc_perm, elem_of_filter.
    by rewrite Z.eqb_eq.
  - rewrite !Order_desc_perm. apply filter_submseteq.
Qed.

(** ** Round trips through the order table *)

Lemma find_updated_rows_other (id id' : Z)
  (columns : ShopOrder.t → ShopOrder.t) (rows : list ShopOrder.t) :
  (∀ o, ShopOrder.Id (columns o) = ShopOrder.Id o) → id' ≠ id →
  List.find (λ o, ShopOrder.Id o =? id') (updated_rows id columns rows)
  = List.find (λ o, ShopOrder.Id o =? id') rows.
Proof.
  intros Hcol Hne. unfold updated_rows.
  induction rows as [|o rows IH]; [done|]. cbn.
  destruct (Z.eqb_spec (ShopOrder.Id o) id) as [Heq|Hneq].
  - rewrite Hcol.
    destruct (Z.eqb_spec (ShopOrder.Id o) id'); [lia|]. exact IH.
  - destruct (Z.eqb_spec (ShopOrder.Id o) id'); [done|]. exact IH.
Qed.

Lemma updated_rows_ids (id : Z) (columns : ShopOrder.t → ShopOrder.t)
  (rows : list ShopOrder.t) :
  (∀ o, ShopOrder.Id (columns o) = ShopOrder.Id o) →
  ShopOrder.Id <$> updated_rows id columns rows = ShopOrder.Id <$> rows.
Proof.
  intros Hcol. unfold updated_rows. rewrite <- list_fmap_compose.
  apply list_fmap_ext. intros _ o _. cbn.
  destruct (_ =? _); [apply Hcol | done].
Qed.

Lemma Updates_order_ids (id : Z) (columns : ShopOrder.t → ShopOrder.t)
  (w : World) :
  (∀ o, ShopOrder.Id (columns o) = ShopOrder.Id o) →
  order_ids (Updates_order id columns w).2 = order_ids w.
Proof.
  intros Hcol. rewrite Updates_order_run. unfold order_ids.
  destruct (next_fault w); cbn; [done|]. by apply updated_rows_ids.
Qed.

(** X3: a receipt stored for an order can be read back: when the update
    is answered and the order is found before, [GetOrder] finds it after
    with the given receipt path and file id, in PENDING_REVIEW whatever its
    status was, its other columns but the update time kept; and what is
    found for any other id is what was found before. *)
Theorem UpdateOrderReceipt_round_trip (id : Z)
  (receiptPath receiptFileId : string) (w : World) (order : ShopOrder.t)
  (Hdb : next_fault w = None)
  (Hfind : find_order id w = Some order) :
  (UpdateOrderReceipt id receiptPath receiptFileId w).1 = None
  ∧ (∃ order',
       find_order id (UpdateOrderReceipt id receiptPath receiptFileId w).2
         = Some order'
       ∧ ShopOrder.Status order' = OrderStatusPendingReview
       ∧ ShopOrder.ReceiptPath order' = receiptPath
       ∧ ShopOrder.ReceiptFileId order' = receiptFileId
       ∧ ShopOrder.UpdatedAt order' = clock w
       ∧ same_but_receipt order order')
  ∧ (∀ id', id' ≠ id →
       find_order id' (UpdateOrderReceipt id receiptPath receiptFileId w).2
       = find_order id' w).
Proof.
  rewrite UpdateOrderReceipt_run, Updates_order_run, Hdb. cbn [fst snd].
  split; [done|]. unfold find_order in *. cbn [shop_orders with_orders].
  split.
  - rewrite find_updated_rows by done. rewrite Hfind. cbn.
    eexists. split; [done|]. by repeat split.
  - intros id' Hne. by apply find_updated_rows_other.
Qed.

Lemma UpdateOrderReceipt_round_trip_witness :
  ∃ order',
    find_order 7
      (UpdateOrderReceipt 7 "receipts/7b.jpg" "file-7b" world7_approved).2
      = Some order'
    ∧ ShopOrder.Status order' = OrderStatusPendingReview
    ∧ ShopOrder.ReceiptPath order' = "receipts/7b.jpg"
    ∧ ShopOrder.ClientEmail order' = "user7@x".
Proof.
  destruct (UpdateOrderReceipt_round_trip 7 "receipts/7b.jpg" "file-7b"
              world7_approved order7_approved eq_refl eq_refl)
    as (_ & (order' & Hfind & Hst & Hpath & _ & _ & Hsame) & _).
  exists order'. split; [exact Hfind|]. split; [exact Hst|].
  split; [exact Hpath|].
  destruct Hsame as (_ & _ & _ & _ & _ & _ & Hemail & _). exact Hemail.
Defined.

(** X4: a provisioned identity can be read back: when the update is
    answered and the order is found before, [GetOrder] finds it after as
    APPROVED with the given e-mail, client id and subscription id, whatever
    its status and identity were, its other columns but the update time
    kept; and what is found for any other id is what was found before. *)
Theorem SetOrderProvisioned_round_trip (id : Z)
  (email clientId subId : string) (w : World) (order : ShopOrder.t)
  (Hdb : next_fault w = None)
  (Hfind : find_order id w = Some order) :
  (SetOrderProvisioned id email clientId subId w).1 = None
  ∧ (∃ order',
       find_order id (SetOrderProvisioned id email clientId subId w).2
         = Some order'
       ∧ ShopOrder.Status order' = OrderStatusApproved
       ∧ ShopOrder.ClientEmail order' = email
       ∧ ShopOrder.ClientId order' = clientId
       ∧ ShopOrder.ClientSubId order' = subId
       ∧ ShopOrder.UpdatedAt order' = clock w
       ∧ same_but_identity order order')
  ∧ (∀ id', id' ≠ id →
       find_order id' (SetOrderProvisioned id email clientId subId w).2
       = find_order id' w).
Proof.
  rewrite SetOrderProvisioned_run, Updates_order_run, Hdb. cbn [fst snd].
  split; [done|]. unfold find_order in *. cbn [shop_orders with_orders].
  split.
  - rewrite find_updated_rows by done. rewrite Hfind. cbn.
    eexists. split; [done|]. by repeat split.
  - intros id' Hne. by apply find_updated_rows_other.
Qed.

Lemma SetOrderProvisioned_round_trip_witness :
  ∃ order',
    find_order 7 (SetOrderProvisioned 7 "a@x" "cid-9" "sub-9" world7).2
      = Some order'
    ∧ ShopOrder.Status order' = OrderStatusApproved
    ∧ ShopOrder.ClientEmail order' = "a@x"
    ∧ ShopOrder.ReceiptPath order' = "receipts/7.jpg".
Proof.
  destruct (SetOrderProvisioned_round_trip 7 "a@x" "cid-9" "sub-9"
              world7 order7 eq_refl eq_refl)
    as (_ & (order' & Hfind & Hst & Hemail & _ & _ & _ & Hsame) & _).
  exists order'. split; [exact Hfind|]. split; [exact Hst|].
  split; [exact Hemail|].
  destruct Hsame as (_ & _ & _ & _ & _ & _ & Hpath & _). exact Hpath.
Defined.

(** X5: the order workflow neither creates nor deletes an order, nor
    gives one another id: after a receipt update, a status update, a
    provisioning update, an approval, a rejection, the serving of a
    receipt or a listing, the table holds the same ids in the same
    places. *)
Theorem workflow_keeps_order_ids (w : World) :
  (∀ id receiptPath receiptFileId,
     order_ids (UpdateOrderReceipt id receiptPath receiptFileId w).2
     = order_ids w)
  ∧ (∀ id status note,
     order_ids (UpdateOrderStatus id status note w).2 = order_ids w)
  ∧ (∀ id email clientId subId,
     order_ids (SetOrderProvisioned id email clientId subId w).2
     = order_ids w)
  ∧ (∀ Provision param,
     order_ids (approveOrder Provision param w).2 = order_ids w)
  ∧ (∀ param, order_ids (rejectOrder param w).2 = order_ids w)
  ∧ (∀ param, order_ids (getReceipt param w).2 = order_ids w)
  ∧ order_ids (ListOrders w).2 = order_ids w
  ∧ (∀ tgId, order_ids (ListOrdersByTelegramId tgId w).2 = order_ids w).
Proof.
  split; [|split; [|split; [|split; [|split; [|split; [|split]]]]]].
  - intros. rewrite UpdateOrderReceipt_run. by apply Updates_order_ids.
  - intros. rewrite UpdateOrderStatus_run. by apply Updates_order_ids.
  - intros. rewrite SetOrderProvisioned_run. by apply Updates_order_ids.
  - intros Provision param.
    destruct (strconv.Atoi param) as [id|err] eqn:Hparam.
    2:{ unfold approveOrder. by rewrite Hparam. }
    rewrite (approveOrder_run Provision param id w Hparam).
    destruct ((GetOrder id w).1) as [order|err]; [|done].
    destruct (negb _); [done|].
    destruct (Provision order) as [[[email clientId] subId]|err]; [|done].
    rewrite SetOrderProvisioned_run.
    pose proof (Updates_order_ids (ShopOrder.Id order)
                  (provisioned_columns email clientId subId
                     (clock (provisioning order w)))
                  (provisioning order w)) as H.
    destruct (Updates_order _ _ _) as [saved w']. cbn [snd] in H.
    assert (order_ids w' = order_ids w) as Hw' by (by rewrite H).
    by destruct saved.
  - intros param.
    destruct (strconv.Atoi param) as [id|err] eqn:Hparam.
    2:{ unfold rejectOrder. by rewrite Hparam. }
    rewrite (rejectOrder_run param id w Hparam). cbn [snd].
    destruct (next_fault w); [done|]. unfold order_ids. cbn.
    by apply updated_rows_ids.
  - intros param. rewrite getReceipt_run.
    by destruct (strconv.Atoi param).
  - by rewrite ListOrders_run.
  - intros tgId. by rewrite ListOrdersByTelegramId_run.
Qed.

(** X6: the three updates of an order are silent about an id that no
    order has: the answer is the database's alone (no error when it
    works), and no order changes. *)
Theorem updates_of_unknown_order_do_nothing (id : Z) (w : World)
  (Hnone : find_order id w = None) :
  (∀ receiptPath receiptFileId,
     (UpdateOrderReceipt id receiptPath receiptFileId w).1 = next_fault w
     ∧ shop_orders (UpdateOrderReceipt id receiptPath receiptFileId w).2
       = shop_orders w)
  ∧ (∀ status note,
     (UpdateOrderStatus id status note w).1 = next_fault w
     ∧ shop_orders (UpdateOrderStatus id status note w).2 = shop_orders w)
  ∧ (∀ email clientId subId,
     (SetOrderProvisioned id email clientId subId w).1 = next_fault w
     ∧ shop_orders (SetOrderProvisioned id email clientId subId w).2
       = shop_orders w).
Proof.
  assert (∀ columns,
            (Updates_order id columns w).1 = next_fault w
            ∧ shop_orders (Updates_order id columns w).2 = shop_orders w)
    as Hany.
  { intros columns. rewrite Updates_order_run.
    destruct (next_fault w); [done|]. cbn. split; [done|].
    apply updated_rows_none. by apply find_order_None. }
  split; [|split]; intros.
  - rewrite UpdateOrderReceipt_run. apply Hany.
  - rewrite UpdateOrderStatus_run. apply Hany.
  - rewrite SetOrderProvisioned_run. apply Hany.
Qed.

Lemma updates_of_unknown_order_do_nothing_witness :
  UpdateOrderReceipt 8 "receipts/8.jpg" "file-8" world7
  = (None, world7)
  ∧ (SetOrderProvisioned 8 "a@x" "cid-9" "sub-9" world7).1 = None
  ∧ shop_orders (SetOrderProvisioned 8 "a@x" "cid-9" "sub-9" world7).2
    = [order7].
Proof.
  pose proof (updates_of_unknown_order_do_nothing 8 world7 eq_refl)
    as (_ & _ & Hprov).
  split; [reflexivity|]. apply (Hprov "a@x" "cid-9" "sub-9").
Defined.

(** ** More on approval *)

Lemma db_works_next (w : World) : db_works w → next_fault w = None.
Proof.
  unfold db_works, next_fault. destruct (db_faults w) as [|f fs]; [done|].
  intros H. by apply Forall_inv in H.
Qed.

Lemma db_works_after (w : World) : db_works w → db_works (after_query w).
Proof.
  unfold db_works, after_query. cbn.
  destruct (db_faults w) as [|f fs]; [done|].
  intros H. by apply Forall_inv_tail in H.
Qed.

Lemma Updates_order_state (id : Z) (columns : ShopOrder.t → ShopOrder.t)
  (w : World) :
  next_fault w = None →
  Updates_order id columns w
  = (None,
     with_orders (updated_rows id columns (shop_orders w)) (after_query w)).
Proof. intros Hdb. by rewrite Updates_order_run, Hdb. Qed.

Lemma cons_ne {A} (x : A) (l : list A) : x :: l ≠ l.
Proof.
  intros H. apply (f_equal length) in H. cbn in H. lia.
Qed.

(** X7: an approval that goes through: the order found in PENDING_REVIEW,
    the provisioner and the store working, [approveOrder] answers
    "approved", the order is afterwards APPROVED with the identity the
    provisioner gave and its other columns but the update time kept, what
    is found for any other id is as before, the provisioner was called
    once, with the order as it was loaded, the customer of the order is
    sent the e-mail of the account, and no warning is logged. *)
Theorem approveOrder_approves_and_notifies
  (Provision : ShopOrder.t → result (string * string * string))
  (param : string) (id : Z) (w : World) (order : ShopOrder.t)
  (email clientId subId : string)
  (Hid : strconv.Atoi param = Ok id)
  (Hfirst : next_fault w = None)
  (Hsecond : next_fault (after_query w) = None)
  (Hfind : find_order id w = Some order)
  (Hstatus : ShopOrder.Status order = OrderStatusPendingReview)
  (Hprov : Provision order = Ok (email, clientId, subId)) :
  (approveOrder Provision param w).1 = jsonMsg "approved" None
  ∧ (∃ order',
       find_order id (approveOrder Provision param w).2 = Some order'
       ∧ ShopOrder.Status order' = OrderStatusApproved
       ∧ ShopOrder.ClientEmail order' = email
       ∧ ShopOrder.ClientId order' = clientId
       ∧ ShopOrder.ClientSubId order' = subId
       ∧ same_but_identity order order')
  ∧ (∀ id', id' ≠ id →
       find_order id' (approveOrder Provision param w).2 = find_order id' w)
  ∧ provision_calls (approveOrder Provision param w).2
    = order :: provision_calls w
  ∧ fulfillments (approveOrder Provision param w).2
    = (ShopOrder.TelegramId order, email) :: fulfillments w
  ∧ warnings (approveOrder Provision param w).2 = warnings w.
Proof.
  rewrite (approveOrder_approves Provision param id w order email clientId
             subId) by done.
  cbn [fst snd]. split; [done|].
  unfold find_order in *. cbn [shop_orders approved_world].
  split; [|split; [|done]].
  - rewrite find_updated_rows by done. rewrite Hfind. cbn.
    eexists. split; [done|]. by repeat split.
  - intros id' Hne. by apply find_updated_rows_other.
Qed.

Lemma approveOrder_approves_and_notifies_witness :
  (approveOrder provisioner7 "7" world7).1 = jsonMsg "approved" None
  ∧ provision_calls (approveOrder provisioner7 "7" world7).2 = [order7]
  ∧ fulfillments (approveOrder provisioner7 "7" world7).2
    = [(1001, "user7@x")].
Proof.
  destruct (approveOrder_approves_and_notifies provisioner7 "7" 7 world7
              order7 "user7@x" "cid-1" "sub-1"
              eq_refl eq_refl eq_refl eq_refl eq_refl eq_refl)
    as (Hresp & _ & _ & Hcalls & Hsent & _).
  split; [exact Hresp|]. split; [exact Hcalls | exact Hsent].
Defined.



(** X9: [approveOrder] sends the fulfillment notice exactly when it
    answers "approved", and then it has called the provisioner with an
    order it found in PENDING_REVIEW; with any other answer no notice is
    sent and no order has changed. *)
Theorem approveOrder_notifies_iff_approved
  (Provision : ShopOrder.t → result (string * string * string))
  (param : string) (w : World) :
  ((approveOrder Provision param w).1 = jsonMsg "approved" None ↔
   fulfillments (approveOrder Provision param w).2 ≠ fulfillments w)
  ∧ ((approveOrder Provision param w).1 = jsonMsg "approved" None →
     ∃ order email,
       ShopOrder.Status order = OrderStatusPendingReview
       ∧ provision_calls (approveOrder Provision param w).2
         = order :: provision_calls w
       ∧ fulfillments (approveOrder Provision param w).2
         = (ShopOrder.TelegramId order, email) :: fulfillments w)
  ∧ ((approveOrder Provision param w).1 ≠ jsonMsg "approved" None →
     fulfillments (approveOrder Provision param w).2 = fulfillments w
     ∧ shop_orders (approveOrder Provision param w).2 = shop_orders w).
Proof.
  destruct (strconv.Atoi param) as [id|err] eqn:Hparam.
  2:{ unfold approveOrder. rewrite Hparam. cbn.
      split; [split; [done|by intros H]|]. split; [done|done]. }
  rewrite (approveOrder_run Provision param id w Hparam).
  destruct ((GetOrder id w).1) as [order|err].
  2:{ cbn. split; [split; [done|by intros H]|]. split; [done|done]. }
  destruct (String.eqb_spec (ShopOrder.Status order)
              OrderStatusPendingReview) as [Hst|Hst]; cbn [negb].
  2:{ cbn. split; [split; [done|by intros H]|]. split; [done|done]. }
  destruct (Provision order) as [[[email clientId] subId]|err].
  2:{ cbn. split; [split; [done|by intros H]|]. split; [done|done]. }
  rewrite SetOrderProvisioned_run, Updates_order_run.
  destruct (next_fault (provisioning order w)); cbn.
  - split; [split; [intros _; apply cons_ne | done]|].
    split; [|done]. intros _. by exists order, email.
  - split; [split; [intros _; apply cons_ne | done]|].
    split; [|done]. intros _. by exists order, email.
Qed.

(** ** How the operations on an order compose *)

Lemma rejected_not_pending :
  String.eqb OrderStatusRejected OrderStatusPendingReview = false.
Proof. reflexivity. Qed.

(** X11: a rejected order cannot be approved: after a rejection that the
    store took, of an order in whatever status, [approveOrder] answers
    "order not ready", the provisioner is not called, and the order stays
    REJECTED. *)
Theorem approveOrder_after_rejectOrder
  (Provision : ShopOrder.t → result (string * string * string))
  (param : string) (id : Z) (w : World) (order : ShopOrder.t)
  (Hid : strconv.Atoi param = Ok id)
  (Hdb : db_works w)
  (Hfind : find_order id w = Some order) :
  (rejectOrder param w).1 = jsonMsg "rejected" None
  ∧ (approveOrder Provision param (rejectOrder param w).2).1
    = jsonMsg "order not ready" None
  ∧ provision_calls (approveOrder Provision param (rejectOrder param w).2).2
    = provision_calls w
  ∧ ∃ order',
      find_order id (approveOrder Provision param (rejectOrder param w).2).2
        = Some order'
      ∧ ShopOrder.Status order' = OrderStatusRejected.
Proof.
  pose proof (db_works_next w Hdb) as Hfirst.
  pose proof (db_works_next _ (db_works_after w Hdb)) as Hsecond.
  rewrite (rejectOrder_run param id w Hid), Hfirst. cbn [fst snd].
  split; [done|].
  set (w1 := with_orders _ _).
  assert (find_order id w1
          = Some (status_columns OrderStatusRejected (clock w) order))
    as Hfind1.
  { unfold find_order, w1. cbn. rewrite find_updated_rows by done.
    unfold find_order in Hfind. by rewrite Hfind. }
  rewrite (approveOrder_run Provision param id w1 Hid), GetOrder_run.
  assert (next_fault w1 = None) as -> by exact Hsecond.
  rewrite Hfind1. cbn [fst ShopOrder.Status status_columns].
  rewrite rejected_not_pending. cbn [negb fst snd].
  split; [done|]. split; [done|].
  eexists. split; [exact Hfind1|done].
Qed.

Lemma approveOrder_after_rejectOrder_witness :
  (approveOrder provisioner7 "7" (rejectOrder "7" world7).2).1
  = jsonMsg "order not ready" None.
Proof.
  assert (db_works world7) as Hdb by constructor.
  exact (proj1 (proj2 (approveOrder_after_rejectOrder provisioner7 "7" 7
                         world7 order7 eq_refl Hdb eq_refl))).
Defined.

(** X12: a receipt reopens an order: after [UpdateOrderReceipt] on an
    order in whatever status, APPROVED and REJECTED included,
    [approveOrder] calls the provisioner for it (again, if it was
    approved before) and, the provisioner and the store working, answers
    "approved". *)
Theorem approveOrder_after_UpdateOrderReceipt
  (Provision : ShopOrder.t → result (string * string * string))
  (param : string) (id : Z) (receiptPath receiptFileId : string)
  (w : World) (order : ShopOrder.t) (email clientId subId : string)
  (Hid : strconv.Atoi param = Ok id)
  (Hdb : db_works w)
  (Hfind : find_order id w = Some order)
  (Hprov : Provision (receipt_columns receiptPath receiptFileId (clock w)
                        order)
           = Ok (email, clientId, subId)) :
  (approveOrder Provision param
     (UpdateOrderReceipt id receiptPath receiptFileId w).2).1
  = jsonMsg "approved" None
  ∧ provision_calls
      (approveOrder Provision param
         (UpdateOrderReceipt id receiptPath receiptFileId w).2).2
    = receipt_columns receiptPath receiptFileId (clock w) order
      :: provision_calls w
  ∧ ∃ order',
      find_order id
        (approveOrder Provision param
           (UpdateOrderReceipt id receiptPath receiptFileId w).2).2
        = Some order'
      ∧ ShopOrder.Status order' = OrderStatusApproved
      ∧ ShopOrder.ClientEmail order' = email.
Proof.
  pose proof (db_works_next w Hdb) as H1.
  pose proof (db_works_next _ (db_works_after w Hdb)) as H2.
  pose proof (db_works_next _ (db_works_after _ (db_works_after w Hdb)))
    as H3.
  rewrite UpdateOrderReceipt_run, (Updates_order_state _ _ w H1).
  cbn [snd]. set (w1 := with_orders _ _).
  assert (find_order id w1
          = Some (receipt_columns receiptPath receiptFileId (clock w) order))
    as Hfind1.
  { unfold find_order, w1. cbn. rewrite find_updated_rows by done.
    unfold find_order in Hfind. by rewrite Hfind. }
  rewrite (approveOrder_approves Provision param id w1 _ email clientId
             subId Hid H2 H3 Hfind1 eq_refl Hprov).
  cbn [fst snd]. split; [done|]. split; [done|].
  unfold find_order. cbn [shop_orders approved_world].
  rewrite find_updated_rows by done.
  unfold find_order in Hfind1. rewrite Hfind1. cbn.
  eexists. split; [done|]. done.
Qed.

Lemma approveOrder_after_UpdateOrderReceipt_witness :
  (approveOrder provisioner7 "7"
     (UpdateOrderReceipt 7 "receipts/7b.jpg" "file-7b" world7_approved).2).1
  = jsonMsg "approved" None
  ∧ length
      (provision_calls
         (approveOrder provisioner7 "7"
            (UpdateOrderReceipt 7 "receipts/7b.jpg" "file-7b"
               world7_approved).2).2) = 2%nat.
Proof.
  assert (db_works world7_approved) as Hdb by constructor.
  destruct (approveOrder_after_UpdateOrderReceipt provisioner7 "7" 7
              "receipts/7b.jpg" "file-7b" world7_approved order7_approved
              "user7@x" "cid-1" "sub-1" eq_refl Hdb eq_refl eq_refl)
    as (Hresp & Hcalls & _).
  split; [exact Hresp|]. by rewrite Hcalls.
Defined.

(** X13: a receipt that was stored is the one that is served: after
    [UpdateOrderReceipt] with a path that is not empty, on an order that
    exists, [getReceipt] serves the file at the cleaned path if it is
    there, and answers 404 if it is not. *)
Theorem getReceipt_after_UpdateOrderReceipt (param : string) (id : Z)
  (receiptPath receiptFileId : string) (w : World) (order : ShopOrder.t)
  (Hid : strconv.Atoi param = Ok id)
  (Hdb : db_works w)
  (Hfind : find_order id w = Some order)
  (Hpath : receiptPath ≠ "") :
  (getReceipt param (UpdateOrderReceipt id receiptPath receiptFileId w).2).1
  = if bool_decide (filepath.Clean receiptPath ∈ files w)
    then File (filepath.Clean receiptPath)
    else AbortWithStatus StatusNotFound.
Proof.
  pose proof (db_works_next w Hdb) as H1.
  pose proof (db_works_next _ (db_works_after w Hdb)) as H2.
  rewrite UpdateOrderReceipt_run, (Updates_order_state _ _ w H1).
  cbn [snd]. set (w1 := with_orders _ _).
  assert (find_order id w1
          = Some (receipt_columns receiptPath receiptFileId (clock w) order))
    as Hfind1.
  { unfold find_order, w1. cbn. rewrite find_updated_rows by done.
    unfold find_order in Hfind. by rewrite Hfind. }
  rewrite getReceipt_run, Hid, GetOrder_run.
  assert (next_fault w1 = None) as -> by exact H2.
  rewrite Hfind1. cbn [fst ShopOrder.ReceiptPath receipt_columns].
  destruct (String.eqb_spec receiptPath ""); [done|]. done.
Qed.

Lemma getReceipt_after_UpdateOrderReceipt_witness :
  (getReceipt "9"
     (UpdateOrderReceipt 9 "/etc//shadow" "file-9b" world_traversal).2).1
  = File "/etc/shadow".
Proof.
  assert (db_works world_traversal) as Hdb by constructor.
  assert ("/etc//shadow" ≠ "") as Hpath by discriminate.
  exact (getReceipt_after_UpdateOrderReceipt "9" 9 "/etc//shadow"
           "file-9b" world_traversal _ eq_refl Hdb eq_refl Hpath).
Defined.

(** ** More on the storefront inbounds *)

(** X14: when an inbound has several override rows, the last one read
    decides: with the configured inbounds and a table that is not empty
    read, an entry of [ListInbounds] is enabled exactly when the last row
    of the table for its inbound is an enabling one. *)
Theorem ListInbounds_last_row_decides (s : ShopService) (w : World)
  (inbounds : list Inbound.t)
  (Hinb : GetAllInbounds (inboundService s) = Ok inbounds)
  (Hread : next_fault w = None)
  (Hrows : shop_inbounds w ≠ []) :
  ∃ options,
    (ListInbounds s w).1 = Ok options
    ∧ ∀ o, o ∈ options →
        (ShopInboundOption.Enabled o = true ↔
         ∃ r, last_row (ShopInboundOption.Id o) (shop_inbounds w) = Some r
              ∧ ShopInbound.Enabled r = true).
Proof.
  rewrite (ListInbounds_run s w inbounds Hinb).
  unfold rows_read. rewrite Hread. cbn [fst].
  eexists. split; [done|]. intros o Ho.
  unfold sort_Slice in Ho. rewrite merge_sort_Permutation in Ho.
  apply list_elem_of_fmap in Ho as (inbound & -> & _).
  assert (bool_decide (length (shop_inbounds w) = 0%nat) = false) as Hlen.
  { apply bool_decide_eq_false. by destruct (shop_inbounds w). }
  unfold inbound_option. rewrite Hlen. cbn.
  rewrite enabled_map_last_row.
  destruct (last_row (Inbound.Id inbound) (shop_inbounds w)) as [r|]; cbn.
  - split; [intros He; by exists r | by intros (r' & [= <-] & He)].
  - split; [done | by intros (r' & ? & _)].
Qed.

Lemma ListInbounds_last_row_decides_witness :
  ∃ options,
    (ListInbounds shop3
       (with_inbounds
          [ShopInbound.mk 1 3 true 100 100; ShopInbound.mk 2 3 false 110 110]
          empty_world)).1 = Ok options
    ∧ ∀ o, o ∈ options →
        (ShopInboundOption.Enabled o = true ↔
         ∃ r, last_row (ShopInboundOption.Id o)
                [ShopInbound.mk 1 3 true 100 100;
                 ShopInbound.mk 2 3 false 110 110] = Some r
              ∧ ShopInbound.Enabled r = true).
Proof.
  apply (ListInbounds_last_row_decides shop3
           (with_inbounds
              [ShopInbound.mk 1 3 true 100 100;
               ShopInbound.mk 2 3 false 110 110] empty_world)
           _ eq_refl eq_refl).
  discriminate.
Defined.

(** X15: [ListInbounds] fails open: when the query for the override table
    fails, its error is dropped, the list has one entry per configured
    inbound in ascending order of id as ever, and every entry is enabled,
    whatever the table holds. *)
Theorem ListInbounds_unreadable_table_enables_all (s : ShopService)
  (w : World) (inbounds : list Inbound.t) (err : error)
  (Hinb : GetAllInbounds (inboundService s) = Ok inbounds)
  (Hread : next_fault w = Some err) :
  ∃ options,
    (ListInbounds s w).1 = Ok options
    ∧ ShopInboundOption.Id <$> options ≡ₚ Inbound.Id <$> inbounds
    ∧ StronglySorted
        (λ a b, ShopInboundOption.Id a <= ShopInboundOption.Id b) options
    ∧ ∀ o, o ∈ options → ShopInboundOption.Enabled o = true.
Proof.
  rewrite (ListInbounds_run s w inbounds Hinb).
  unfold rows_read. rewrite Hread. cbn [fst].
  eexists. split; [done|]. split; [|split].
  - unfold sort_Slice. rewrite merge_sort_Permutation.
    rewrite <- list_fmap_compose.
    by rewrite (list_fmap_ext _ Inbound.Id inbounds) by done.
  - apply sort_Slice_by_id_sorted.
  - intros o Ho. unfold sort_Slice in Ho.
    rewrite merge_sort_Permutation in Ho.
    by apply list_elem_of_fmap in Ho as (inbound & -> & _).
Qed.

Lemma ListInbounds_unreadable_table_enables_all_witness :
  ∃ options,
    (ListInbounds shop3 world35_failing_once).1 = Ok options
    ∧ ShopInboundOption.Id <$> options ≡ₚ [5; 3; 1]
    ∧ StronglySorted
        (λ a b, ShopInboundOption.Id a <= ShopInboundOption.Id b) options
    ∧ ∀ o, o ∈ options → ShopInboundOption.Enabled o = true.
Proof.
  exact (ListInbounds_unreadable_table_enables_all shop3
           world35_failing_once _ "database is locked" eq_refl eq_refl).
Defined.

(** ** The upsert of an override row *)

Lemma SetInboundEnabled_state (inboundId : Z) (enabled : bool) (w : World) :
  next_fault w = None → next_fault (after_query w) = None →
  SetInboundEnabled inboundId enabled w
  = (None,
     with_inbounds (upserted_rows inboundId enabled w)
       (after_query (after_query w))).
Proof.
  intros H1 H2. unfold SetInboundEnabled, First_shop_inbound, upserted_rows.
  unfold find_row, mbind, M_bind, bind, db_query. rewrite H1.
  cbn [mret M_ret ret gets shop_inbounds after_query].
  destruct (List.find _ (shop_inbounds w)) as [existing|];
    unfold time_Now, gets.
  - unfold Updates_shop_inbound, mbind, M_bind, bind, db_query.
    by rewrite H2.
  - unfold Create_shop_inbound, mbind, M_bind, bind, db_query.
    by rewrite H2.
Qed.

Lemma SetInboundEnabled_lookup_failed (inboundId : Z) (enabled : bool)
  (w : World) (err : error) :
  next_fault w = Some err → next_fault (after_query w) = None →
  SetInboundEnabled inboundId enabled w
  = (None,
     with_inbounds (shop_inbounds w ++ [new_row inboundId enabled w])
       (after_query (after_query w))).
Proof.
  intros H1 H2. unfold SetInboundEnabled, First_shop_inbound.
  unfold mbind, M_bind, bind, db_query. rewrite H1.
  cbn [mret M_ret ret]. unfold time_Now, gets.
  unfold Create_shop_inbound, mbind, M_bind, bind, db_query.
  by rewrite H2.
Qed.

Lemma next_id_fresh (rows : list ShopInbound.t) (r : ShopInbound.t) :
  r ∈ rows → ShopInbound.Id r < next_id rows.
Proof.
  unfold next_id. induction rows as [|x rows IH]; intros Hin.
  { by apply elem_of_nil in Hin. }
  cbn. apply elem_of_cons in Hin as [->|Hin]; [lia|].
  specialize (IH Hin). lia.
Qed.

Lemma NoDup_fmap_inj_on {A B} (f : A → B) (l : list A) (x y : A) :
  NoDup (f <$> l) → x ∈ l → y ∈ l → f x = f y → x = y.
Proof.
  induction l as [|a l IH]; intros Hnd Hx Hy Hf.
  { by apply elem_of_nil in Hx. }
  cbn in Hnd. apply NoDup_cons in Hnd as [Ha Hl].
  apply elem_of_cons in Hx as [->|Hx], Hy as [->|Hy]; [done| | |by apply IH].
  - exfalso. apply Ha. rewrite Hf. apply list_elem_of_fmap. by exists y.
  - exfalso. apply Ha. rewrite <- Hf. apply list_elem_of_fmap. by exists x.
Qed.

Lemma find_row_Some (k : Z) (w : World) (r : ShopInbound.t) :
  find_row k w = Some r → r ∈ shop_inbounds w ∧ ShopInbound.InboundId r = k.
Proof.
  unfold find_row. intros H. apply List.find_some in H as [Hin Hk].
  split; [by apply list_elem_of_In | lia].
Qed.

Lemma find_row_None (k : Z) (w : World) (r : ShopInbound.t) :
  find_row k w = None → r ∈ shop_inbounds w → ShopInbound.InboundId r ≠ k.
Proof.
  unfold find_row. intros H Hin Hk. apply list_elem_of_In in Hin.
  pose proof (List.find_none _ _ H r Hin) as Hno. cbn in Hno. lia.
Qed.

(** X16: what [SetInboundEnabled] does to the override table when its
    queries are answered. If the inbound has a row, no row is added or
    removed: the rows with the primary key of the row found get the flag
    and the update time, and keep their key, inbound and creation time;
    every other row is as before. If it has none, one row is added after
    the others, for this inbound, with the flag, created and updated now,
    under a key greater than every key in the table. Either way, keys that
    were distinct stay distinct, and a table with at most one row per
    inbound stays one. *)
Theorem SetInboundEnabled_upserts (inboundId : Z) (enabled : bool)
  (w : World)
  (Hfirst : next_fault w = None)
  (Hsecond : next_fault (after_query w) = None) :
  (SetInboundEnabled inboundId enabled w).1 = None
  ∧ match find_row inboundId w with
    | Some existing =>
        Forall2
          (λ r r',
             ShopInbound.Id r' = ShopInbound.Id r
             ∧ ShopInbound.InboundId r' = ShopInbound.InboundId r
             ∧ ShopInbound.CreatedAt r' = ShopInbound.CreatedAt r
             ∧ (ShopInbound.Id r = ShopInbound.Id existing →
                ShopInbound.Enabled r' = enabled
                ∧ ShopInbound.UpdatedAt r' = clock w)
             ∧ (ShopInbound.Id r ≠ ShopInbound.Id existing → r' = r))
          (shop_inbounds w)
          (shop_inbounds (SetInboundEnabled inboundId enabled w).2)
    | None =>
        shop_inbounds (SetInboundEnabled inboundId enabled w).2
        = (shop_inbounds w ++
           [ShopInbound.mk (next_id (shop_inbounds w)) inboundId enabled
              (clock w) (clock w)])%list
        ∧ ∀ r, r ∈ shop_inbounds w →
               ShopInbound.Id r < next_id (shop_inbounds w)
    end
  ∧ (NoDup (ShopInbound.Id <$> shop_inbounds w) →
     NoDup (ShopInbound.Id <$>
              shop_inbounds (SetInboundEnabled inboundId enabled w).2))
  ∧ (NoDup (ShopInbound.InboundId <$> shop_inbounds w) →
     NoDup (ShopInbound.InboundId <$>
              shop_inbounds (SetInboundEnabled inboundId enabled w).2)).
Proof.
  split; [by rewrite SetInboundEnabled_state|].
  split; [|split].
  - rewrite SetInboundEnabled_state by done. cbn [snd].
    unfold upserted_rows.
    destruct (find_row inboundId w) as [existing|]; cbn.
    + apply Forall2_fmap_r, Forall_Forall2_diag, Forall_forall.
      intros r _. unfold compose. cbn beta.
      destruct (Z.eqb_spec (ShopInbound.Id r) (ShopInbound.Id existing))
        as [Heq|Hne]; cbn.
      * split; [done|]. split; [done|]. split; [done|].
        split; [done|]. intros Hne. by destruct Hne.
      * split; [done|]. split; [done|]. split; [done|].
        split; [|done]. intros Heq. by destruct Hne.
    + split; [done|]. apply next_id_fresh.
  - intros Hkeys. rewrite SetInboundEnabled_state by done. cbn [snd].
    unfold upserted_rows.
    destruct (find_row inboundId w) as [existing|]; cbn.
    + rewrite <- list_fmap_compose.
      erewrite list_fmap_ext; [exact Hkeys|].
      intros _ r _. cbn. by destruct (_ =? _).
    + rewrite fmap_app. apply NoDup_app. split; [done|]. split.
      * intros k Hk Hnew. cbn in Hnew.
        apply list_elem_of_singleton in Hnew. subst k.
        apply list_elem_of_fmap in Hk as (r & Hid & Hr).
        pose proof (next_id_fresh _ r Hr). lia.
      * apply NoDup_singleton.
  - intros Huniq. by apply SetInboundEnabled_one_row_per_inbound.
Qed.

Lemma SetInboundEnabled_upserts_witness :
  shop_inbounds (SetInboundEnabled 7 true world35).2
  = [ShopInbound.mk 1 3 true 100 100; ShopInbound.mk 2 5 false 100 100;
     ShopInbound.mk 3 7 true 120 120]
  ∧ NoDup (ShopInbound.InboundId <$>
             shop_inbounds (SetInboundEnabled 7 true world35).2).
Proof.
  destruct (SetInboundEnabled_upserts 7 true world35 eq_refl eq_refl)
    as (_ & Hrows & _ & Huniq).
  split; [exact (proj1 Hrows)|].
  apply Huniq. cbn. apply NoDup_cons. split; [|apply NoDup_singleton].
  intros Hin. apply list_elem_of_singleton in Hin. discriminate.
Defined.

(** X17: a failed lookup makes a duplicate: when the query for the row of
    the inbound fails and the insertion that follows is answered,
    [SetInboundEnabled] reports no error and adds a row for the inbound
    whether it has one or not; if it had one, the table no longer holds
    one row per inbound. *)
Theorem SetInboundEnabled_failed_lookup_inserts (inboundId : Z)
  (enabled : bool) (w : World) (err : error)
  (Hfirst : next_fault w = Some err)
  (Hsecond : next_fault (after_query w) = None) :
  (SetInboundEnabled inboundId enabled w).1 = None
  ∧ shop_inbounds (SetInboundEnabled inboundId enabled w).2
    = (shop_inbounds w ++
       [ShopInbound.mk (next_id (shop_inbounds w)) inboundId enabled
          (clock w) (clock w)])%list
  ∧ ((∃ r, r ∈ shop_inbounds w ∧ ShopInbound.InboundId r = inboundId) →
     ¬ NoDup (ShopInbound.InboundId <$>
                shop_inbounds (SetInboundEnabled inboundId enabled w).2)).
Proof.
  rewrite (SetInboundEnabled_lookup_failed inboundId enabled w err)
    by done.
  cbn [fst snd shop_inbounds with_inbounds]. split; [done|]. split; [done|].
  intros (r & Hr & Hk) Hnd.
  rewrite fmap_app in Hnd. apply NoDup_app in Hnd as (_ & Hfresh & _).
  apply (Hfresh inboundId).
  - apply list_elem_of_fmap. by exists r.
  - cbn. by left.
Qed.

Lemma SetInboundEnabled_failed_lookup_inserts_witness :
  shop_inbounds (SetInboundEnabled 3 false world35_failing_once).2
  = [ShopInbound.mk 1 3 true 100 100; ShopInbound.mk 2 5 false 100 100;
     ShopInbound.mk 3 3 false 120 120]
  ∧ ¬ NoDup (ShopInbound.InboundId <$>
               shop_inbounds
                 (SetInboundEnabled 3 false world35_failing_once).2).
Proof.
  destruct (SetInboundEnabled_failed_lookup_inserts 3 false
              world35_failing_once "database is locked" eq_refl eq_refl)
    as (_ & Hrows & Hdup).
  split; [exact Hrows|]. apply Hdup.
  exists (ShopInbound.mk 1 3 true 100 100). split; [by left | done].
Defined.

Lemma last_row_Some (k : Z) (rows : list ShopInbound.t) (r : ShopInbound.t) :
  last_row k rows = Some r → r ∈ rows ∧ ShopInbound.InboundId r = k.
Proof.
  unfold last_row. intros H. apply last_Some_elem_of in H.
  apply elem_of_filter in H as [Hin Hk]. split; [done|lia].
Qed.

Lemma last_row_fmap (k : Z) (f : ShopInbound.t → ShopInbound.t)
  (rows : list ShopInbound.t) :
  (∀ r, ShopInbound.InboundId (f r) = ShopInbound.InboundId r) →
  last_row k (f <$> rows) = f <$> last_row k rows.
Proof.
  intros Hf. induction rows as [|r rows IH] using rev_ind; [done|].
  rewrite fmap_app. cbn [fmap list_fmap]. rewrite !last_row_snoc, Hf.
  by destruct (_ =? _).
Qed.

Lemma enabled_map_rows (rows : list ShopInbound.t) (k : Z) :
  NoDup (ShopInbound.InboundId <$> rows) →
  (enabled_map rows !! k = Some true ↔
   ∃ r, r ∈ rows ∧ ShopInbound.InboundId r = k
        ∧ ShopInbound.Enabled r = true).
Proof.
  intros Huniq. split; [apply enabled_map_present|].
  intros (r & Hr & <- & Hen). by rewrite (enabled_map_unique rows r), Hen.
Qed.

(** The upsert of the table is the assignment of the map read from it. *)
Lemma enabled_map_upserted (k : Z) (b : bool) (w : World) :
  NoDup (ShopInbound.Id <$> shop_inbounds w) →
  NoDup (ShopInbound.InboundId <$> shop_inbounds w) →
  enabled_map (upserted_rows k b w) = <[k := b]> (enabled_map (shop_inbounds w)).
Proof.
  intros Hkeys Huniq. unfold upserted_rows.
  destruct (find_row k w) as [existing|] eqn:Hfind;
    [|by rewrite enabled_map_snoc].
  apply find_row_Some in Hfind as [Hin Hk].
  apply map_eq. intros j.
  rewrite enabled_map_last_row, last_row_fmap
    by (intros r; by destruct (_ =? _)).
  destruct (decide (j = k)) as [->|Hne].
  - rewrite lookup_insert_eq.
    pose proof (enabled_map_unique _ existing Huniq Hin) as Hlook.
    rewrite Hk, enabled_map_last_row in Hlook.
    destruct (last_row k (shop_inbounds w)) as [r|] eqn:Hlast; [|done].
    apply last_row_Some in Hlast as [Hr Hrk].
    assert (r = existing) as ->
      by (apply (NoDup_fmap_inj_on ShopInbound.InboundId (shop_inbounds w));
          [done|done|done|congruence]).
    cbn. by rewrite Z.eqb_refl.
  - rewrite lookup_insert_ne by done. rewrite enabled_map_last_row.
    destruct (last_row j (shop_inbounds w)) as [r|] eqn:Hlast; [|done].
    apply last_row_Some in Hlast as [Hr Hrj]. cbn.
    destruct (Z.eqb_spec (ShopInbound.Id r) (ShopInbound.Id existing))
      as [Heq|Hneq]; [|done].
    assert (r = existing) as ->
      by (by apply (NoDup_fmap_inj_on ShopInbound.Id (shop_inbounds w))).
    congruence.
Qed.

(** X18: a toggle shows in the list: the database working, the rows of
    the override table having distinct keys and at most one row per
    inbound, [setInboundEnabled] answers "updated" with no error, and
    [ListInbounds] then shows the inbound with the flag that was set, and
    every other inbound enabled exactly when the table held an enabling
    row for it before. So the first toggle on an empty table, whichever
    way, hides every other inbound. *)
Theorem setInboundEnabled_then_ListInbounds (s : ShopService) (w : World)
  (inbounds : list Inbound.t) (param : string) (inboundId : Z)
  (enabled : bool)
  (Hinb : GetAllInbounds (inboundService s) = Ok inbounds)
  (Hid : strconv.Atoi param = Ok inboundId)
  (Hdb : db_works w)
  (Hkeys : NoDup (ShopInbound.Id <$> shop_inbounds w))
  (Huniq : NoDup (ShopInbound.InboundId <$> shop_inbounds w)) :
  (setInboundEnabled param (Ok enabled) w).1 = jsonMsg "updated" None
  ∧ ∃ options,
      (ListInbounds s (setInboundEnabled param (Ok enabled) w).2).1
      = Ok options
      ∧ ∀ o, o ∈ options →
          (ShopInboundOption.Id o = inboundId →
           ShopInboundOption.Enabled o = enabled)
          ∧ (ShopInboundOption.Id o ≠ inboundId →
             (ShopInboundOption.Enabled o = true ↔
              ∃ r, r ∈ shop_inbounds w
                   ∧ ShopInbound.InboundId r = ShopInboundOption.Id o
                   ∧ ShopInbound.Enabled r = true)).
Proof.
  pose proof (db_works_next w Hdb) as H1.
  pose proof (db_works_next _ (db_works_after w Hdb)) as H2.
  pose proof (db_works_next _ (db_works_after _ (db_works_after w Hdb)))
    as H3.
  unfold setInboundEnabled. rewrite Hid.
  unfold mbind, M_bind, bind.
  rewrite (SetInboundEnabled_state inboundId enabled w H1 H2).
  cbn [fst snd mret M_ret ret]. split; [done|].
  set (w' := with_inbounds _ _).
  rewrite (ListInbounds_run s w' inbounds Hinb). unfold rows_read.
  assert (next_fault w' = None) as -> by exact H3.
  cbn [fst shop_inbounds w' with_inbounds].
  pose proof (enabled_map_upserted inboundId enabled w Hkeys Huniq) as Hmap.
  assert (bool_decide (length (upserted_rows inboundId enabled w) = 0%nat)
          = false) as Hlen.
  { apply bool_decide_eq_false. intros Hnil.
    apply nil_length_inv in Hnil. rewrite Hnil in Hmap.
    apply (f_equal (lookup inboundId)) in Hmap.
    by rewrite lookup_insert_eq in Hmap. }
  rewrite Hlen, Hmap.
  eexists. split; [done|]. intros o Ho.
  unfold sort_Slice in Ho. rewrite merge_sort_Permutation in Ho.
  apply list_elem_of_fmap in Ho as (inbound & -> & _).
  unfold inbound_option. cbn. split.
  - intros ->. by rewrite lookup_insert_eq.
  - intros Hne. rewrite lookup_insert_ne by done.
    rewrite <- (enabled_map_rows _ _ Huniq).
    by destruct (enabled_map (shop_inbounds w) !! Inbound.Id inbound)
      as [[|]|].
Qed.

Lemma setInboundEnabled_then_ListInbounds_witness :
  (setInboundEnabled "3" (Ok false) empty_world).1 = jsonMsg "updated" None
  ∧ ∃ options,
      (ListInbounds shop3 (setInboundEnabled "3" (Ok false) empty_world).2).1
      = Ok options
      ∧ ∀ o, o ∈ options → ShopInboundOption.Enabled o = false.
Proof.
  assert (db_works empty_world) as Hdb by constructor.
  destruct (setInboundEnabled_then_ListInbounds shop3 empty_world _ "3" 3
              false eq_refl eq_refl Hdb NoDup_nil_2 NoDup_nil_2)
    as (Hresp & options & Hlist & Hshown).
  split; [exact Hresp|]. exists options. split; [exact Hlist|].
  intros o Ho. destruct (Hshown o Ho) as [Hthis Hother].
  destruct (decide (ShopInboundOption.Id o = 3)) as [H3|H3];
    [by apply Hthis|].
  destruct (ShopInboundOption.Enabled o) eqn:Hen; [|done].
  destruct (proj1 (Hother H3) eq_refl) as (r & Hr & _).
  by apply elem_of_nil in Hr.
Defined.

(** ** The ids of the enabled inbounds *)

Lemma StronglySorted_filter_keep {A} (R : relation A) (P : A → Prop)
  `{∀ x, Decision (P x)} (l : list A) :
  StronglySorted R l → StronglySorted R (filter P l).
Proof.
  induction 1 as [|a l Hl IH Ha]; [constructor|].
  rewrite filter_cons. destruct (decide (P a)); [|done].
  constructor; [done|]. apply Forall_forall. intros x Hx.
  apply list_elem_of_filter in Hx as [_ Hx].
  by eapply Forall_forall in Ha.
Qed.

Lemma filter_all {A} (P : A → Prop) `{∀ x, Decision (P x)} (l : list A) :
  Forall P l → filter P l = l.
Proof.
  induction 1 as [|a l Ha Hl IH]; [done|].
  rewrite filter_cons. destruct (decide (P a)); [by rewrite IH|done].
Qed.

(** X19: [EnabledInboundIds] passes on the error of the inbound service
    without a query. Otherwise it returns, in ascending order, the ids of
    the configured inbounds that [ListInbounds] shows enabled: all of them
    when no override row was read, and else those whose last override row
    is an enabling one. *)
Theorem EnabledInboundIds_are_the_enabled (s : ShopService) (w : World) :
  match GetAllInbounds (inboundService s) with
  | Err err => EnabledInboundIds s w = (Err err, w)
  | Ok inbounds =>
      ∃ ids,
        (EnabledInboundIds s w).1 = Ok ids
        ∧ StronglySorted Z.le ids
        ∧ (∀ k, k ∈ ids ↔
             (∃ inbound, inbound ∈ inbounds ∧ Inbound.Id inbound = k)
             ∧ (rows_read w = []
                ∨ ∃ r, last_row k (rows_read w) = Some r
                       ∧ ShopInbound.Enabled r = true))
        ∧ (rows_read w = [] → ids ≡ₚ Inbound.Id <$> inbounds)
  end.
Proof.
  destruct (GetAllInbounds (inboundService s)) as [inbounds|err] eqn:Hinb.
  2:{ unfold EnabledInboundIds, ListInbounds. by rewrite Hinb. }
  unfold EnabledInboundIds, mbind, M_bind, bind.
  rewrite (ListInbounds_run s w inbounds Hinb). cbn [fst snd mret M_ret ret].
  set (entry := inbound_option _ _).
  assert (∀ inbound,
            ShopInboundOption.Enabled (entry inbound) = true ↔
            rows_read w = []
            ∨ ∃ r, last_row (Inbound.Id inbound) (rows_read w) = Some r
                   ∧ ShopInbound.Enabled r = true) as Hentry.
  { intros inbound. unfold entry, inbound_option. cbn.
    rewrite enabled_map_last_row.
    destruct (rows_read w) as [|r0 rows] eqn:Hrows.
    - cbn. split; [by left | done].
    - assert (bool_decide (length (r0 :: rows) = 0%nat) = false) as ->
        by (by apply bool_decide_eq_false).
      destruct (last_row (Inbound.Id inbound) (r0 :: rows)) as [r|]; cbn.
      + split.
        * intros He. right. by exists r.
        * intros [?|(r' & [= <-] & He)]; done.
      + split; [done|]. intros [?|(r' & ? & _)]; done. }
  eexists. split; [done|]. split; [|split].
  - eapply StronglySorted_fmap;
      [|apply StronglySorted_filter_keep, sort_Slice_by_id_sorted].
    by intros a b.
  - intros k. rewrite list_elem_of_fmap. split.
    + intros (o & -> & Ho). apply list_elem_of_filter in Ho as [Hen Ho].
      unfold sort_Slice in Ho. rewrite merge_sort_Permutation in Ho.
      apply list_elem_of_fmap in Ho as (inbound & -> & Hin).
      split; [by exists inbound|]. by apply Hentry.
    + intros [(inbound & Hin & <-) Hen]. exists (entry inbound).
      split; [done|]. apply list_elem_of_filter.
      split; [by apply Hentry|].
      unfold sort_Slice. rewrite merge_sort_Permutation.
      apply list_elem_of_fmap. by exists inbound.
  - intros Hnone. rewrite filter_all.
    + unfold sort_Slice. rewrite merge_sort_Permutation.
      rewrite <- list_fmap_compose.
      by rewrite (list_fmap_ext _ Inbound.Id inbounds) by done.
    + apply Forall_forall. intros o Ho.
      unfold sort_Slice in Ho. rewrite merge_sort_Permutation in Ho.
      apply list_elem_of_fmap in Ho as (inbound & -> & _).
      apply Hentry. by left.
Qed.

(** ** More on validation and pricing *)

Lemma ValidateCustomOrder_accepts (s : ShopService) (dataGB days : Z) :
  ValidateCustomOrder s dataGB days = None ↔
  ¬ (0 < (GetShopMinGB (settingService s)).1
     ∧ dataGB < (GetShopMinGB (settingService s)).1)
  ∧ ¬ (0 < (GetShopMaxGB (settingService s)).1
       ∧ (GetShopMaxGB (settingService s)).1 < dataGB)
  ∧ ¬ (0 < (GetShopMinDays (settingService s)).1
       ∧ days < (GetShopMinDays (settingService s)).1)
  ∧ ¬ (0 < (GetShopMaxDays (settingService s)).1
       ∧ (GetShopMaxDays (settingService s)).1 < days).
Proof.
  unfold ValidateCustomOrder.
  destruct
    (below_bound_reflect (GetShopMinGB (settingService s)).1 dataGB),
    (above_bound_reflect (GetShopMaxGB (settingService s)).1 dataGB),
    (below_bound_reflect (GetShopMinDays (settingService s)).1 days),
    (above_bound_reflect (GetShopMaxDays (settingService s)).1 days);
    split; intros; try discriminate; tauto.
Qed.

(** X20: what [ValidateCustomOrder] accepts is a box: a volume and a
    duration that each lie between those of two accepted orders are
    accepted together, so a volume accepted with one duration is accepted
    with every accepted duration. *)
Theorem ValidateCustomOrder_accepts_a_box (s : ShopService)
  (dataGB1 days1 dataGB2 days2 dataGB days : Z)
  (H1 : ValidateCustomOrder s dataGB1 days1 = None)
  (H2 : ValidateCustomOrder s dataGB2 days2 = None)
  (Hdata : Z.min dataGB1 dataGB2 <= dataGB <= Z.max dataGB1 dataGB2)
  (Hdays : Z.min days1 days2 <= days <= Z.max days1 days2) :
  ValidateCustomOrder s dataGB days = None.
Proof.
  apply ValidateCustomOrder_accepts in H1, H2.
  apply ValidateCustomOrder_accepts. lia.
Qed.

Lemma ValidateCustomOrder_accepts_a_box_witness :
  ValidateCustomOrder (shop_with 10 100 7 365 5) 20 300 = None.
Proof.
  apply (ValidateCustomOrder_accepts_a_box (shop_with 10 100 7 365 5)
           20 30 90 300 20 300); [reflexivity | reflexivity | lia | lia].
Defined.

(** X21: pricing an order that passed validation: with a positive minimum
    and a positive maximum volume configured, the rate readable, and the
    price of the maximum volume within the 64-bit range, the price of
    every accepted order is the exact product of its volume and the
    clamped rate, it lies between the prices of the minimum and of the
    maximum volume, and it is not negative. *)
Theorem CalculateCustomPrice_of_validated_order (s : ShopService)
  (dataGB days : Z)
  (Hvalid : ValidateCustomOrder s dataGB days = None)
  (Hmin : 0 < (GetShopMinGB (settingService s)).1)
  (Hmax : 0 < (GetShopMaxGB (settingService s)).1)
  (Hrate : (GetShopPricePerGB (settingService s)).2 = None)
  (Hfit : (GetShopMaxGB (settingService s)).1 * clamped_rate s <= int_max) :
  CalculateCustomPrice s dataGB = (dataGB * clamped_rate s, None)
  ∧ (GetShopMinGB (settingService s)).1 * clamped_rate s
    <= (CalculateCustomPrice s dataGB).1
    <= (GetShopMaxGB (settingService s)).1 * clamped_rate s
  ∧ 0 <= (CalculateCustomPrice s dataGB).1.
Proof.
  apply ValidateCustomOrder_accepts in Hvalid.
  assert (0 <= clamped_rate s) as Hr by (unfold clamped_rate; lia).
  rewrite CalculateCustomPrice_eq, Hrate.
  rewrite wrap64_in_int by (unfold in_int, int_min; split; nia).
  cbn [fst]. split; [done|]. split; nia.
Qed.

Lemma CalculateCustomPrice_of_validated_order_witness :
  CalculateCustomPrice (shop_with 10 100 7 365 5) 50 = (250, None).
Proof.
  apply (CalculateCustomPrice_of_validated_order
           (shop_with 10 100 7 365 5) 50 30);
    [reflexivity | reflexivity | reflexivity | reflexivity |].
  by vm_compute.
Defined.

(** X22: the settings that leave no choice: with no positive bound
    configured [ValidateCustomOrder] accepts every order, negative
    volumes and durations included; with a positive maximum below the
    minimum, for the volume or for the duration, it accepts none. *)
Theorem ValidateCustomOrder_degenerate_bounds (s : ShopService) :
  ((GetShopMinGB (settingService s)).1 <= 0
   ∧ (GetShopMaxGB (settingService s)).1 <= 0
   ∧ (GetShopMinDays (settingService s)).1 <= 0
   ∧ (GetShopMaxDays (settingService s)).1 <= 0 →
   ∀ dataGB days, ValidateCustomOrder s dataGB days = None)
  ∧ (0 < (GetShopMaxGB (settingService s)).1
         < (GetShopMinGB (settingService s)).1 →
     ∀ dataGB days, ValidateCustomOrder s dataGB days ≠ None)
  ∧ (0 < (GetShopMaxDays (settingService s)).1
         < (GetShopMinDays (settingService s)).1 →
     ∀ dataGB days, ValidateCustomOrder s dataGB days ≠ None).
Proof.
  split; [|split].
  - intros H dataGB days. apply ValidateCustomOrder_accepts. lia.
  - intros H dataGB days Hv. apply ValidateCustomOrder_accepts in Hv. lia.
  - intros H dataGB days Hv. apply ValidateCustomOrder_accepts in Hv. lia.
Qed.

Lemma ValidateCustomOrder_degenerate_bounds_witness :
  ValidateCustomOrder (shop_with 0 0 0 0 5) (-3) (-1) = None
  ∧ ValidateCustomOrder (shop_with 100 10 7 365 5) 50 30 ≠ None.
Proof.
  split.
  - apply (proj1 (ValidateCustomOrder_degenerate_bounds
                    (shop_with 0 0 0 0 5))). cbn. lia.
  - apply (proj1 (proj2 (ValidateCustomOrder_degenerate_bounds
                           (shop_with 100 10 7 365 5)))). cbn. lia.
Defined.

Lemma wrap64_congr (x y : Z) :
  x mod 2 ^ 64 = y mod 2 ^ 64 → wrap64 x = wrap64 y.
Proof.
  intros H. unfold wrap64.
  rewrite <- (Zplus_mod_idemp_l x), <- (Zplus_mod_idemp_l y). by rewrite H.
Qed.

Lemma wrap64_mod (z : Z) : wrap64 z mod 2 ^ 64 = z mod 2 ^ 64.
Proof.
  unfold wrap64.
  rewrite <- Zminus_mod_idemp_l, Z.mod_mod by lia.
  rewrite Zminus_mod_idemp_l. f_equal. lia.
Qed.

Lemma wrap64_add (a b : Z) : wrap64 (wrap64 a + wrap64 b) = wrap64 (a + b).
Proof.
  apply wrap64_congr.
  rewrite Z.add_mod, !wrap64_mod, <- Z.add_mod by lia. done.
Qed.

(** X23: the price is additive in the volume: the price of two volumes
    together is the sum of their prices, in 64-bit arithmetic; it is their
    plain sum when that fits. *)
Theorem CalculateCustomPrice_additive (s : ShopService) (dataGB1 dataGB2 : Z) :
  (CalculateCustomPrice s (dataGB1 + dataGB2)).1
  = wrap64 ((CalculateCustomPrice s dataGB1).1
            + (CalculateCustomPrice s dataGB2).1)
  ∧ (in_int ((CalculateCustomPrice s dataGB1).1
             + (CalculateCustomPrice s dataGB2).1) →
     (CalculateCustomPrice s (dataGB1 + dataGB2)).1
     = (CalculateCustomPrice s dataGB1).1
       + (CalculateCustomPrice s dataGB2).1).
Proof.
  assert ((CalculateCustomPrice s (dataGB1 + dataGB2)).1
          = wrap64 ((CalculateCustomPrice s dataGB1).1
                    + (CalculateCustomPrice s dataGB2).1)) as Hsum.
  { rewrite !CalculateCustomPrice_eq.
    destruct ((GetShopPricePerGB (settingService s)).2); cbn [fst]; [done|].
    rewrite wrap64_add. f_equal. lia. }
  split; [exact Hsum|]. intros Hfit. rewrite Hsum. by apply wrap64_in_int.
Qed.

Lemma CalculateCustomPrice_additive_witness :
  (CalculateCustomPrice (shop_with 0 0 0 0 5) (3 + 4)).1
  = (CalculateCustomPrice (shop_with 0 0 0 0 5) 3).1
    + (CalculateCustomPrice (shop_with 0 0 0 0 5) 4).1.
Proof.
  apply (proj2 (CalculateCustomPrice_additive (shop_with 0 0 0 0 5) 3 4)).
  unfold in_int. vm_compute. split; discriminate.
Defined.

(** ** Requests in flight, under any schedule *)

Lemma approve_step_calls
  (Provision : ShopOrder.t → result (string * string * string))
  (a : Approval) (w : World) :
  ∃ calls,
    provision_calls (approve_step Provision a w).2
    = (calls ++ provision_calls w)%list
    ∧ (length calls + pending (approve_step Provision a w).1
       ≤ pending a)%nat.
Proof.
  destruct a as [param|order|order email clientId subId|response].
  - exists []. cbn [approve_step].
    destruct (strconv.Atoi param) as [id|err]; [|cbn; split; [done|lia]].
    unfold mbind, M_bind, bind. rewrite GetOrder_run.
    destruct (next_fault w); [cbn; split; [done|lia]|].
    destruct (find_order id w) as [order|]; [|cbn; split; [done|lia]].
    destruct (negb _); cbn; split; done || lia.
  - exists [order]. cbn [approve_step].
    unfold mbind, M_bind, bind, ProvisionOrder.
    destruct (Provision order) as [[[email clientId] subId]|err];
      cbn; split; done || lia.
  - exists []. cbn [approve_step]. unfold mbind, M_bind, bind.
    rewrite SetOrderProvisioned_run, Updates_order_run.
    destruct (next_fault w); cbn; split; done || lia.
  - exists []. cbn. split; [done|lia].
Qed.

Lemma approve_step_progress
  (Provision : ShopOrder.t → result (string * string * string))
  (a : Approval) (w : World) :
  (steps_left (approve_step Provision a w).1 ≤ pred (steps_left a))%nat.
Proof.
  destruct a as [param|order|order email clientId subId|response].
  - cbn [approve_step].
    destruct (strconv.Atoi param) as [id|err]; [|by cbn; lia].
    unfold mbind, M_bind, bind. rewrite GetOrder_run.
    destruct (next_fault w); [by cbn; lia|].
    destruct (find_order id w) as [order|]; [|by cbn; lia].
    destruct (negb _); cbn; lia.
  - cbn [approve_step]. unfold mbind, M_bind, bind, ProvisionOrder.
    destruct (Provision order) as [[[email clientId] subId]|err]; cbn; lia.
  - cbn [approve_step]. unfold mbind, M_bind, bind.
    rewrite SetOrderProvisioned_run, Updates_order_run.
    destruct (next_fault w); cbn; lia.
  - cbn. lia.
Qed.

Lemma run_two_cons
  (Provision : ShopOrder.t → result (string * string * string))
  (t : bool) (schedule : list bool) (a b : Approval) (w : World) :
  run_two Provision (t :: schedule) a b w
  = if t
    then run_two Provision schedule (approve_step Provision a w).1 b
           (approve_step Provision a w).2
    else run_two Provision schedule a (approve_step Provision b w).1
           (approve_step Provision b w).2.
Proof.
  destruct t; cbn [run_two]; unfold mbind, M_bind, bind;
    by destruct (approve_step _ _ w).
Qed.

(** X24: however two approval requests take turns, each calls the
    provisioner at most once: the calls made are added to the calls
    before, none is dropped, and there are at most as many as there are
    requests that have not yet passed the call. *)
Theorem run_two_provisions_once_per_request
  (Provision : ShopOrder.t → result (string * string * string))
  (schedule : list bool) (a b : Approval) (w : World) :
  ∃ calls,
    provision_calls (run_two Provision schedule a b w).2
    = (calls ++ provision_calls w)%list
    ∧ (length calls ≤ pending a + pending b)%nat.
Proof.
  revert a b w. induction schedule as [|t schedule IH]; intros a b w.
  { exists []. cbn. split; [done|lia]. }
  rewrite run_two_cons. destruct t.
  - destruct (approve_step_calls Provision a w) as (c1 & Hc1 & Hn1).
    destruct (IH (approve_step Provision a w).1 b
                (approve_step Provision a w).2) as (c2 & Hc2 & Hn2).
    exists (c2 ++ c1)%list. rewrite Hc2, Hc1, app_assoc.
    split; [done|]. rewrite length_app. lia.
  - destruct (approve_step_calls Provision b w) as (c1 & Hc1 & Hn1).
    destruct (IH a (approve_step Provision b w).1
                (approve_step Provision b w).2) as (c2 & Hc2 & Hn2).
    exists (c2 ++ c1)%list. rewrite Hc2, Hc1, app_assoc.
    split; [done|]. rewrite length_app. lia.
Qed.

(** X25: however two approval requests take turns, a request that gets
    three turns has its answer, whatever the database, the provisioner and
    the other request do; a request further on needs as many turns fewer. *)
Theorem run_two_answers_after_three_turns
  (Provision : ShopOrder.t → result (string * string * string))
  (schedule : list bool) (a b : Approval) (w : World) :
  ((steps_left a ≤ turns_of true schedule)%nat →
   ∃ response,
     (run_two Provision schedule a b w).1.1 = Answered response)
  ∧ ((steps_left b ≤ turns_of false schedule)%nat →
     ∃ response,
       (run_two Provision schedule a b w).1.2 = Answered response).
Proof.
  revert a b w. induction schedule as [|t schedule IH]; intros a b w.
  { cbn. split; intros H.
    - destruct a; cbn in H; try lia. by eexists.
    - destruct b; cbn in H; try lia. by eexists. }
  rewrite run_two_cons. unfold turns_of in *. destruct t; cbn.
  - pose proof (approve_step_progress Provision a w) as Hp.
    destruct (IH (approve_step Provision a w).1 b
                (approve_step Provision a w).2) as [IHa IHb].
    split; intros H; [apply IHa; lia | by apply IHb].
  - pose proof (approve_step_progress Provision b w) as Hp.
    destruct (IH a (approve_step Provision b w).1
                (approve_step Provision b w).2) as [IHa IHb].
    split; intros H; [by apply IHa | apply IHb; lia].
Qed.

Lemma run_two_answers_after_three_turns_witness :
  ∃ response,
    (run_two provisioner7 [false; true; true; false; true]
       (Arrived "7") (Arrived "7") world7).1.1 = Answered response.
Proof.
  apply (proj1 (run_two_answers_after_three_turns provisioner7
                  [false; true; true; false; true]
                  (Arrived "7") (Arrived "7") world7)).
  cbn. lia.
Defined.

(** ** The package catalogue *)

Lemma ListPackages_run (activeOnly : bool) (st : Store) :
  ListPackages activeOnly st =
  (match next_fault (world st) with
   | Some err => ([], Some err)
   | None =>
       (Order_desc ShopPackage.Id
          (if activeOnly
           then List.filter ShopPackage.IsActive (shop_packages st)
           else shop_packages st), None)
   end, mkStore (after_query (world st)) (shop_packages st)).
Proof.
  unfold ListPackages, mbind, MP_bind, lift, db_query.
  by destruct (next_fault (world st)).
Qed.

Lemma DeletePackage_run (id : Z) (st : Store) :
  DeletePackage id st =
  match next_fault (world st) with
  | Some err => (Some err, mkStore (after_query (world st)) (shop_packages st))
  | None =>
      (None,
       mkStore (after_query (world st))
         (List.filter (λ p, negb (ShopPackage.Id p =? id))
            (shop_packages st)))
  end.
Proof.
  unfold DeletePackage, mbind, MP_bind, lift, db_query.
  by destruct (next_fault (world st)).
Qed.

Lemma GetPackage_run (id : Z) (st : Store) :
  GetPackage id st =
  (match next_fault (world st) with
   | Some err => Err err
   | None =>
       match List.find (λ p, ShopPackage.Id p =? id) (shop_packages st) with
       | Some pkg => Ok pkg
       | None => Err ErrRecordNotFound
       end
   end, mkStore (after_query (world st)) (shop_packages st)).
Proof.
  unfold GetPackage, mbind, MP_bind, lift, db_query.
  by destruct (next_fault (world st)).
Qed.

Lemma find_after_delete (id id' : Z) (rows : list ShopPackage.t) :
  List.find (λ p, ShopPackage.Id p =? id')
    (List.filter (λ p, negb (ShopPackage.Id p =? id)) rows)
  = if id' =? id then None
    else List.find (λ p, ShopPackage.Id p =? id') rows.
Proof.
  induction rows as [|p rows IH]; cbn; [by destruct (id' =? id)|].
  destruct (Z.eqb_spec (ShopPackage.Id p) id) as [Hp|Hp]; cbn.
  - rewrite IH. destruct (Z.eqb_spec id' id) as [Heq|Hne]; [done|].
    destruct (Z.eqb_spec (ShopPackage.Id p) id'); [lia|done].
  - destruct (Z.eqb_spec (ShopPackage.Id p) id') as [Hq|Hq]; [|exact IH].
    destruct (Z.eqb_spec id' id); [lia|done].
Qed.

Lemma filter_none_removed {A} (keep : A → bool) (rows : list A) :
  (∀ r, r ∈ rows → keep r = true) → List.filter keep rows = rows.
Proof.
  induction rows as [|r rows IH]; intros H; [done|]. cbn.
  rewrite (H r) by (by left). rewrite IH; [done|].
  intros r' Hr'. apply H. by right.
Qed.

(** X26: [ListPackages] returns the stored packages, the greatest id
    first: all of them, each as often as stored, when every package is
    asked for, and exactly the active ones when only those are; the
    active listing is part of the full one. When the database fails it
    returns no package and the database's error. The catalogue is not
    changed. *)
Theorem ListPackages_active_filter (activeOnly : bool) (st : Store) :
  match next_fault (world st) with
  | Some err => (ListPackages activeOnly st).1 = ([], Some err)
  | None =>
      (ListPackages activeOnly st).1.2 = None
      ∧ (∀ p, p ∈ (ListPackages activeOnly st).1.1 ↔
              p ∈ shop_packages st
              ∧ (activeOnly = true → ShopPackage.IsActive p = true))
      ∧ StronglySorted (λ a b, ShopPackage.Id b <= ShopPackage.Id a)
          (ListPackages activeOnly st).1.1
      ∧ (ListPackages false st).1.1 ≡ₚ shop_packages st
      ∧ (ListPackages true st).1.1 ⊆+ (ListPackages false st).1.1
  end
  ∧ shop_packages (ListPackages activeOnly st).2 = shop_packages st.
Proof.
  rewrite !ListPackages_run. cbn [fst snd]. split; [|done].
  destruct (next_fault (world st)); [done|]. cbn [fst snd].
  split; [done|]. split; [|split; [|split]].
  - intros p. rewrite Order_desc_perm. destruct activeOnly.
    + rewrite elem_of_filter. split; [intros [? ?]; by split|].
      intros [? H]. split; [done|]. by apply H.
    + split; [by intros ? | by intros [? _]].
  - apply Order_desc_sorted.
  - apply Order_desc_perm.
  - rewrite !Order_desc_perm. apply filter_submseteq.
Qed.

(** X27: a deleted package is gone and nothing else is: the database
    working, [deletePackage] answers "deleted" with no error, [GetPackage]
    then fails for the id with "record not found" and returns for every
    other id what it returned before; the orders, those for the deleted
    package included, are untouched; and deleting an id that no package
    has leaves the catalogue as it is, with the same answer. *)
Theorem deletePackage_then_GetPackage (param : string) (id : Z) (st : Store)
  (Hid : strconv.Atoi param = Ok id)
  (Hdb : db_works (world st)) :
  (deletePackage param st).1 = jsonMsg "deleted" None
  ∧ (GetPackage id (deletePackage param st).2).1 = Err ErrRecordNotFound
  ∧ (∀ id', id' ≠ id →
       (GetPackage id' (deletePackage param st).2).1 = (GetPackage id' st).1)
  ∧ shop_orders (world (deletePackage param st).2) = shop_orders (world st)
  ∧ ((∀ p, p ∈ shop_packages st → ShopPackage.Id p ≠ id) →
     shop_packages (deletePackage param st).2 = shop_packages st).
Proof.
  pose proof (db_works_next _ Hdb) as H1.
  pose proof (db_works_next _ (db_works_after _ Hdb)) as H2.
  unfold deletePackage. rewrite Hid. unfold mbind, MP_bind.
  rewrite DeletePackage_run, H1. cbn [fst snd mret MP_ret].
  split; [done|]. split; [|split; [|split]].
  - rewrite GetPackage_run. cbn [fst snd world shop_packages].
    by rewrite H2, find_after_delete, Z.eqb_refl.
  - intros id' Hne. rewrite !GetPackage_run.
    cbn [fst snd world shop_packages]. rewrite H1, H2, find_after_delete.
    by destruct (Z.eqb_spec id' id).
  - done.
  - intros Hnone. apply filter_none_removed. intros p Hp.
    specialize (Hnone p Hp). by destruct (Z.eqb_spec (ShopPackage.Id p) id).
Qed.

Lemma deletePackage_then_GetPackage_witness :
  (deletePackage "2" store3).1 = jsonMsg "deleted" None
  ∧ (GetPackage 2 (deletePackage "2" store3).2).1 = Err ErrRecordNotFound
  ∧ (GetPackage 3 (deletePackage "2" store3).2).1
    = Ok (ShopPackage.mk 3 "old" 20 30 80 false 90 95)
  ∧ shop_orders (world (deletePackage "2" store3).2)
    = shop_orders (world store3).
Proof.
  assert (db_works (world store3)) as Hdb by constructor.
  destruct (deletePackage_then_GetPackage "2" 2 store3 eq_refl Hdb)
    as (Hresp & Hgone & Hothers & Horders & _).
  split; [exact Hresp|]. split; [exact Hgone|]. split; [|exact Horders].
  rewrite (Hothers 3) by lia. reflexivity.
Defined.

Lemma listOrders_run (st : Store) :
  listOrders st =
  match next_fault (world st) with
  | Some err =>
      (inl (jsonMsg "failed to get orders" (Some err)),
       mkStore (after_query (world st)) (shop_packages st))
  | None =>
      (inr (Order_desc ShopOrder.Id (shop_orders (world st)),
            match next_fault (after_query (world st)) with
            | Some _ => []
            | None => Order_desc ShopPackage.Id (shop_packages st)
            end),
       mkStore (after_query (after_query (world st))) (shop_packages st))
  end.
Proof.
  unfold listOrders, mbind, MP_bind, lift. rewrite ListOrders_run.
  destruct (next_fault (world st)) as [err|]; [done|].
  cbn [fst snd]. rewrite ListPackages_run. cbn [world shop_packages].
  by destruct (next_fault (after_query (world st))).
Qed.

(** X10: [listOrders] fails only with the query for the orders: then it
    answers "failed to get orders" with the database's error and asks
    nothing more. Otherwise it answers with every stored order, the
    greatest id first, and with every stored package, the greatest id
    first; when the query for the packages fails the orders are answered
    all the same, with no package and no error. *)
Theorem listOrders_needs_only_the_orders (st : Store) :
  match next_fault (world st) with
  | Some err =>
      listOrders st
      = (inl (jsonMsg "failed to get orders" (Some err)),
         mkStore (after_query (world st)) (shop_packages st))
  | None =>
      ∃ orders packages,
        (listOrders st).1 = inr (orders, packages)
        ∧ orders ≡ₚ shop_orders (world st)
        ∧ StronglySorted (λ a b, ShopOrder.Id b <= ShopOrder.Id a) orders
        ∧ match next_fault (after_query (world st)) with
          | Some _ => packages = []
          | None =>
              packages ≡ₚ shop_packages st
              ∧ StronglySorted
                  (λ a b, ShopPackage.Id b <= ShopPackage.Id a) packages
          end
  end.
Proof.
  rewrite listOrders_run.
  destruct (next_fault (world st)) as [err|]; [done|].
  do 2 eexists. split; [done|].
  split; [apply Order_desc_perm|]. split; [apply Order_desc_sorted|].
  destruct (next_fault (after_query (world st))); [done|].
  split; [apply Order_desc_perm | apply Order_desc_sorted].
Qed.
